(** * SIREN micro-services: bulk CSV import and paginated collection views

    A shallow embedding of
    - [import_csv_to_mysql.py]   (row mapping, batching, insert-or-ignore load,
                                  commit / rollback of a run),
    - [services/api-mysql/main.py] ([create_hydra_view], the list endpoints),
    - [services/api-spark/main.py] ([create_pagination]),
    together with the properties of the design document that concern them. *)

From Stdlib Require Import ZArith Lia Bool Ascii.
From stdpp Require Import gmap strings list pretty.

Local Open Scope Z_scope.

(** ** Python values shared by the three programs *)

(** Exceptions that the modelled code can raise. *)
Inductive exn :=
| ZeroDivisionError
| OverflowError
| KeyError
| RequestValidationError
| DatabaseError
| ReadError.

Inductive result (A : Type) :=
| Ok (a : A)
| Raise (e : exn).
Arguments Ok {A} a.
Arguments Raise {A} e.

#[global] Instance result_ret : MRet result := fun A a => Ok a.
#[global] Instance result_bind : MBind result := fun A B k r =>
  match r with
  | Ok a => k a
  | Raise e => Raise e
  end.

(** ** [int / int] and [math.ceil]

    Python's [/] on two [int]s is true division: the result is the binary64
    float nearest to the exact quotient (ties to even), [ZeroDivisionError]
    for a zero divisor and [OverflowError] when the quotient is beyond the
    range of a float.  A finite float is kept as [mant * 2 ^ expo]. *)
Module PyNum.

Record pyfloat := { mant : Z; expo : Z }.

(** Nearest integer to [n / d], ties to even ([0 <= n], [0 < d]). *)
Definition round_half_even (n d : Z) : Z :=
  let q := n / d in
  let r := n mod d in
  if 2 * r <? d then q
  else if d <? 2 * r then q + 1
  else if Z.even q then q else q + 1.

(** [2 ^ l <= a / b], decided on integers. *)
Definition pow2_le_quot (a b l : Z) : bool :=
  if 0 <=? l then b * 2 ^ l <=? a else b <=? a * 2 ^ (- l).

(** [floor (log2 (a / b))] for [0 < a] and [0 < b]. *)
Definition floor_log2_quot (a b : Z) : Z :=
  let l := Z.log2 a - Z.log2 b in
  if pow2_le_quot a b l then l else l - 1.

(** The quotient of two positive integers rounded to 53 significant bits,
    with the exponent clamped at the subnormal range. *)
Definition round_quot (a b : Z) : pyfloat :=
  let e := Z.max (floor_log2_quot a b - 52) (-1074) in
  let m := if 0 <=? e then round_half_even a (b * 2 ^ e)
           else round_half_even (a * 2 ^ (- e)) b in
  {| mant := m; expo := e |}.

(** [2 ^ 1024 <= mant * 2 ^ expo]: the value is too large for a float. *)
Definition too_large (x : pyfloat) : bool :=
  if 0 <=? expo x then 2 ^ 1024 <=? mant x * 2 ^ expo x
  else 2 ^ (1024 - expo x) <=? mant x.

(** [a / b] on Python integers. *)
Definition truediv (a b : Z) : result pyfloat :=
  if b =? 0 then Raise ZeroDivisionError
  else if a =? 0 then Ok {| mant := 0; expo := 0 |}
  else
    let r := round_quot (Z.abs a) (Z.abs b) in
    if too_large r then Raise OverflowError
    else Ok {| mant := Z.sgn a * Z.sgn b * mant r; expo := expo r |}.

(** [math.ceil x]: the least integer not below [x], as an [int]. *)
Definition ceil (x : pyfloat) : Z :=
  if 0 <=? expo x then mant x * 2 ^ expo x
  else - ((- mant x) / 2 ^ (- expo x)).

(** The exact ceiling of [a / b], the number the design document names. *)
Definition ceil_quot (a b : Z) : Z := - ((- a) / b).

End PyNum.

(** ** [services/api-mysql]: Hydra views and the list endpoints *)
Module ApiMysql.

(** [schemas.HydraView]; the four links are [Optional[str]] with default
    [None]. *)
Record HydraView := {
  view_id : string;
  view_type : string;
  first : option string;
  previous : option string;
  next : option string;
  last : option string
}.

(** The f-string [f"{base_url}?page={page}&limit={limit}"]. *)
Definition page_url (base_url : string) (page limit : Z) : string :=
  base_url +:+ "?page=" +:+ pretty page +:+ "&limit=" +:+ pretty limit.

Definition create_hydra_view (base_url : string) (page limit total_pages : Z)
  : option HydraView :=
  if total_pages <=? 0 then None
  else
    let view := {| view_id := page_url base_url page limit;
                   view_type := "hydra:PartialCollectionView";
                   first := None; previous := None;
                   next := None; last := None |} in
    let view :=
      if 1 <? page then
        {| view_id := view_id view; view_type := view_type view;
           first := Some (page_url base_url 1 limit);
           previous := Some (page_url base_url (page - 1) limit);
           next := next view; last := last view |}
      else view in
    let view :=
      if page <? total_pages then
        {| view_id := view_id view; view_type := view_type view;
           first := first view; previous := previous view;
           next := Some (page_url base_url (page + 1) limit);
           last := Some (page_url base_url total_pages limit) |}
      else view in
    Some view.

(** [schemas.PaginationMeta]. *)
Record PaginationMeta := {
  page : Z;
  limit : Z;
  totalItems : Z;
  total_pages : Z;
  has_next : bool;
  has_prev : bool;
  view : option HydraView
}.

(** [datetime.date] and its [isoformat]. *)
Record date := { year : Z; month : Z; day : Z }.

Fixpoint zeros (n : nat) : string :=
  match n with
  | O => ""
  | S n' => "0" +:+ zeros n'
  end.

(** [%04d] and [%02d]: pad with zeros on the left up to [width]. *)
Definition zfill (width : nat) (s : string) : string :=
  zeros (width - String.length s) +:+ s.

Definition isoformat (d : date) : string :=
  zfill 4 (pretty (year d)) +:+ "-" +:+ zfill 2 (pretty (month d))
    +:+ "-" +:+ zfill 2 (pretty (day d)).

(** [models.UniteLegale], a row of the table as the ORM returns it. *)
Record UniteLegale := {
  siren : string;
  nom_unite_legale : option string;
  denomination_unite_legale : option string;
  activite_principale_unite_legale : option string;
  nomenclature_activite_principale_unite_legale : option string;
  tranche_effectifs_unite_legale : option string;
  date_creation : option date
}.

(** [schemas.EntrepriseBase]: the same seven attributes ([from_orm] reads
    them one by one). *)
Record EntrepriseBase := {
  eb_siren : string;
  eb_nom_unite_legale : option string;
  eb_denomination_unite_legale : option string;
  eb_activite_principale_unite_legale : option string;
  eb_nomenclature_activite_principale_unite_legale : option string;
  eb_tranche_effectifs_unite_legale : option string;
  eb_date_creation : option date
}.

Definition from_orm (e : UniteLegale) : EntrepriseBase :=
  {| eb_siren := siren e;
     eb_nom_unite_legale := nom_unite_legale e;
     eb_denomination_unite_legale := denomination_unite_legale e;
     eb_activite_principale_unite_legale := activite_principale_unite_legale e;
     eb_nomenclature_activite_principale_unite_legale :=
       nomenclature_activite_principale_unite_legale e;
     eb_tranche_effectifs_unite_legale := tranche_effectifs_unite_legale e;
     eb_date_creation := date_creation e |}.

(** [schemas.EntrepriseJSONLD] (the constant [@context] and [@type] are
    left out). *)
Record EntrepriseJSONLD := {
  ld_id : string;
  identifier : string;
  name : option string;
  legalName : option string;
  alternativeName : option string;
  foundingDate : option string;
  naics : option string;
  numberOfEmployees : option string;
  legalForm : option string;
  additionalType : option string;
  socialEnterprise : bool;
  isEmployer : bool
}.

(** Python's [a or b] on [Optional[str]]: [a] when it is a non-empty
    string, [b] otherwise. *)
Definition py_or (a b : option string) : option string :=
  match a with
  | Some s => if decide (s = "") then b else a
  | None => b
  end.

Definition from_entreprise (entreprise : EntrepriseBase) : EntrepriseJSONLD :=
  {| ld_id := "siren:" +:+ eb_siren entreprise;
     identifier := eb_siren entreprise;
     name := py_or (eb_nom_unite_legale entreprise)
                   (eb_denomination_unite_legale entreprise);
     legalName := eb_denomination_unite_legale entreprise;
     alternativeName := None;
     foundingDate := isoformat <$> eb_date_creation entreprise;
     naics := eb_activite_principale_unite_legale entreprise;
     numberOfEmployees := eb_tranche_effectifs_unite_legale entreprise;
     legalForm := None;
     additionalType := None;
     socialEnterprise := false;
     isEmployer := false |}.

(** [schemas.EntrepriseListJSONLD]. *)
Record EntrepriseListJSONLD := {
  numberOfItems : Z;
  list_totalItems : Z;
  itemListElement : list EntrepriseJSONLD;
  pagination : PaginationMeta
}.

(** The two filters the endpoints put on [UniteLegale]. *)
Inductive filter :=
| ByActivite (code : string)
| ByNom (search_pattern : string).

(** The SQLAlchemy session as the endpoints use it: a count and a page of
    rows for a filter, an offset and a limit. *)
Record Session := {
  query_count : filter -> Z;
  query_all : filter -> Z -> Z -> list UniteLegale
}.

(** [request.url.scheme] and [request.url.netloc]. *)
Record Request := { scheme : string; netloc : string }.

(** [Query(1, ge=1)] and [Query(20, ge=1, le=100)]: the framework answers
    422 before the endpoint body runs. *)
Definition validate_page_limit (page limit : Z) : result unit :=
  if (1 <=? page) && (1 <=? limit) && (limit <=? 100) then Ok tt
  else Raise RequestValidationError.

(** [math.ceil(total / limit) if total > 0 else 1]. *)
Definition compute_total_pages (total limit : Z) : result Z :=
  if 0 <? total then x ← PyNum.truediv total limit; mret (PyNum.ceil x)
  else Ok 1.

(** The part the two list endpoints share once the filter and the base URL
    of the links are fixed.  (The bearer token is checked by [verify_token]
    before the endpoint runs; that gate is not modelled.) *)
Definition list_endpoint (db : Session) (f : filter) (view_base : string)
    (page limit : Z) : result EntrepriseListJSONLD :=
  _ ← validate_page_limit page limit;
  let offset := (page - 1) * limit in
  let total := query_count db f in
  let entreprises := query_all db f offset limit in
  let entreprises_jsonld :=
    (fun e => from_entreprise (from_orm e)) <$> entreprises in
  total_pages ← compute_total_pages total limit;
  let hydra_view := create_hydra_view view_base page limit total_pages in
  let pagination :=
    {| page := page; limit := limit; totalItems := total;
       total_pages := total_pages;
       has_next := page <? total_pages;
       has_prev := 1 <? page;
       view := hydra_view |} in
  mret {| numberOfItems := Z.of_nat (length entreprises_jsonld);
          list_totalItems := total;
          itemListElement := entreprises_jsonld;
          pagination := pagination |}.

Definition get_entreprises_by_activite (request : Request) (code : string)
    (page limit : Z) (db : Session) : result EntrepriseListJSONLD :=
  let base_url :=
    scheme request +:+ "://" +:+ netloc request
      +:+ "/entreprises/activite/" +:+ code in
  list_endpoint db (ByActivite code) base_url page limit.

(** A Python [str] is kept as its UTF-8 encoding.  Its length, as [len] and
    the [min_length] of a query parameter count it, is the number of its
    code points: the bytes of the encoding that are not continuation bytes
    ([10xxxxxx]). *)
Definition is_continuation (a : ascii) : bool :=
  match a with
  | Ascii _ _ _ _ _ _ bit6 bit7 => bit7 && negb bit6
  end.

Fixpoint py_len (s : string) : nat :=
  match s with
  | EmptyString => 0
  | String a s' => ((if is_continuation a then 0 else 1) + py_len s')%nat
  end.

(** [nom] is declared [Query(..., min_length=3)]: the framework answers 422
    for a name of fewer than three characters. *)
Definition search_entreprises_by_name (request : Request) (nom : string)
    (page limit : Z) (db : Session) : result EntrepriseListJSONLD :=
  if (py_len nom <? 3)%nat then Raise RequestValidationError
  else
    let search_pattern := "%" +:+ nom +:+ "%" in
    let base_url :=
      scheme request +:+ "://" +:+ netloc request +:+ "/entreprises/search" in
    list_endpoint db (ByNom search_pattern) (base_url +:+ "?nom=" +:+ nom)
      page limit.

End ApiMysql.

(** ** [services/api-spark]: [create_pagination] *)
Module ApiSpark.

(** The dictionary under ["view"]; a key that is not set is [None]. *)
Record view_dict := {
  view_id : string;
  view_type : string;
  first : option string;
  previous : option string;
  next : option string;
  last : option string
}.

(** The dictionary [create_pagination] returns; ["view"] is set only for a
    non-empty [base_url]. *)
Record pagination_dict := {
  page : Z;
  limit : Z;
  totalItems : Z;
  total_pages : Z;
  has_next : bool;
  has_prev : bool;
  view : option view_dict
}.

Definition page_url (base_url : string) (page limit : Z) : string :=
  base_url +:+ "?page=" +:+ pretty page +:+ "&limit=" +:+ pretty limit.

(** The body of [create_pagination] after [total_pages] is known. *)
Definition pagination_with (page limit total total_pages : Z)
    (base_url : string) : pagination_dict :=
  let pagination :=
    {| page := page; limit := limit; totalItems := total;
       total_pages := total_pages;
       has_next := page <? total_pages;
       has_prev := 1 <? page;
       view := None |} in
  if decide (base_url = "") then pagination
  else
    let v := {| view_id := page_url base_url page limit;
                view_type := "hydra:PartialCollectionView";
                first := None; previous := None;
                next := None; last := None |} in
    let v :=
      if 1 <? page then
        {| view_id := view_id v; view_type := view_type v;
           first := Some (page_url base_url 1 limit);
           previous := Some (page_url base_url (page - 1) limit);
           next := next v; last := last v |}
      else v in
    let v :=
      if page <? total_pages then
        {| view_id := view_id v; view_type := view_type v;
           first := first v; previous := previous v;
           next := Some (page_url base_url (page + 1) limit);
           last := Some (page_url base_url total_pages limit) |}
      else v in
    {| page := page; limit := limit; totalItems := total;
       total_pages := total_pages;
       has_next := has_next pagination;
       has_prev := has_prev pagination;
       view := Some v |}.

Definition create_pagination (page limit total : Z) (base_url : string)
  : result pagination_dict :=
  total_pages ←
    (if 0 <? total then x ← PyNum.truediv total limit; mret (PyNum.ceil x)
     else Ok 1);
  mret (pagination_with page limit total total_pages base_url).

End ApiSpark.

(** ** [import_csv_to_mysql.py] *)
Module ImportCsv.

(** [COLUMN_MAPPING]: CSV column to table column, in the order of the
    dictionary literal. *)
Definition COLUMN_MAPPING : list (string * string) :=
  [ ("siren", "siren");
    ("statutDiffusionUniteLegale", "statut_diffusion_unite_legale");
    ("unitePurgeeUniteLegale", "unite_purgee_unite_legale");
    ("dateCreationUniteLegale", "date_creation_unite_legale");
    ("sigleUniteLegale", "sigle_unite_legale");
    ("sexeUniteLegale", "sexe_unite_legale");
    ("prenom1UniteLegale", "prenom_1_unite_legale");
    ("prenom2UniteLegale", "prenom_2_unite_legale");
    ("prenom3UniteLegale", "prenom_3_unite_legale");
    ("prenom4UniteLegale", "prenom_4_unite_legale");
    ("prenomUsuelUniteLegale", "prenom_usuel_unite_legale");
    ("pseudonymeUniteLegale", "pseudonyme_unite_legale");
    ("identifiantAssociationUniteLegale", "identifiant_association_unite_legale");
    ("trancheEffectifsUniteLegale", "tranche_effectifs_unite_legale");
    ("anneeEffectifsUniteLegale", "annee_effectifs_unite_legale");
    ("dateDernierTraitementUniteLegale", "date_dernier_traitement_unite_legale");
    ("nombrePeriodesUniteLegale", "nombre_periodes_unite_legale");
    ("categorieEntreprise", "categorie_entreprise");
    ("anneeCategorieEntreprise", "annee_categorie_entreprise");
    ("dateDebut", "date_debut");
    ("etatAdministratifUniteLegale", "etat_administratif_unite_legale");
    ("nomUniteLegale", "nom_unite_legale");
    ("nomUsageUniteLegale", "nom_usage_unite_legale");
    ("denominationUniteLegale", "denomination_unite_legale");
    ("denominationUsuelle1UniteLegale", "denomination_usuelle_1_unite_legale");
    ("denominationUsuelle2UniteLegale", "denomination_usuelle_2_unite_legale");
    ("denominationUsuelle3UniteLegale", "denomination_usuelle_3_unite_legale");
    ("categorieJuridiqueUniteLegale", "categorie_juridique_unite_legale");
    ("activitePrincipaleUniteLegale", "activite_principale_unite_legale");
    ("nomenclatureActivitePrincipaleUniteLegale",
     "nomenclature_activite_principale_unite_legale");
    ("nicSiegeUniteLegale", "nic_siege_unite_legale");
    ("economieSocialeSolidaireUniteLegale",
     "economie_sociale_solidaire_unite_legale");
    ("societeMissionUniteLegale", "societe_mission_unite_legale");
    ("caractereEmployeurUniteLegale", "caractere_employeur_unite_legale") ].

(** A row of [csv.DictReader]: field name to text, or to [None] for a
    field that a short line leaves out. *)
Abbreviation SourceRecord := (gmap string (option string)).

(** A Python [dict] with string keys, in insertion order. *)
Definition pydict (V : Type) := list (string * V).

(** [d[k] = v]: overwrite in place, or append a new key. *)
Fixpoint dict_set {V} (d : pydict V) (k : string) (v : V) : pydict V :=
  match d with
  | [] => [(k, v)]
  | (k', v') :: d' =>
      if decide (k' = k) then (k, v) :: d' else (k', v') :: dict_set d' k v
  end.

(** [d[k]], with [None] for [KeyError]. *)
Fixpoint dict_get {V} (d : pydict V) (k : string) : option V :=
  match d with
  | [] => None
  | (k', v') :: d' => if decide (k' = k) then Some v' else dict_get d' k
  end.

(** [list(d.keys())]. *)
Definition dict_keys {V} (d : pydict V) : list string := d.*1.

(** A mapped row: table column to text or [NULL]. *)
Abbreviation TargetRecord := (pydict (option string)).

(** [row.get(csv_col, None)]. *)
Definition row_get (row : SourceRecord) (csv_col : string) : option string :=
  match row !! csv_col with
  | Some value => value
  | None => None
  end.

(** The body of the inner [for csv_col, db_col in COLUMN_MAPPING.items()]. *)
Definition map_column (row : SourceRecord) (mapped_row : TargetRecord)
    (entry : string * string) : TargetRecord :=
  let '(csv_col, db_col) := entry in
  match row_get row csv_col with
  | None => dict_set mapped_row db_col None
  | Some value =>
      if decide (value = "") then dict_set mapped_row db_col None
      else dict_set mapped_row db_col (Some value)
  end.

(** The row mapper: lines 146 to 153 of [import_csv]. *)
Definition map_row (row : SourceRecord) : TargetRecord :=
  foldl (map_column row) [] COLUMN_MAPPING.

(** What the script needs of a [pymysql] connection.  [executemany] gets the
    statement [INSERT IGNORE INTO unite_legale (columns) VALUES (...)], given
    by its column list, and the value tuples; it answers the new state of the
    connection and either [cursor.rowcount] or the exception raised. *)
Class Connection (C : Type) := {
  executemany : C -> list string -> list (list (option string)) -> C * result Z;
  execute_truncate : C -> C * result unit;
  commit : C -> C * result unit;
  rollback : C -> C
}.

Section Script.
Context {C : Type} `{Connection C}.

(** [tuple(row[col] for col in columns)]. *)
Definition row_values (columns : list string) (row : TargetRecord)
  : result (list (option string)) :=
  mapM (M := result)
       (fun col => match dict_get row col with
                   | Some v => Ok v
                   | None => Raise KeyError
                   end) columns.

Definition insert_batch (connection : C) (batch : list TargetRecord) : C * Z :=
  match batch with
  | [] => (connection, 0)
  | batch_0 :: _ =>
      let columns := dict_keys batch_0 in
      match mapM (M := result) (row_values columns) batch with
      | Raise _ => (connection, 0)
      | Ok values =>
          match executemany connection columns values with
          | (connection', Ok rowcount) =>
              (connection', if 0 <? rowcount then rowcount else 0)
          | (connection', Raise _) => (connection', 0)
          end
      end
  end.

(** The local variables of [import_csv] inside the [try]; [handed] is not in
    the script: it records the batches passed to [insert_batch], oldest
    first. *)
Record run_state := {
  batch : list TargetRecord;
  total_rows : Z;
  inserted_rows : Z;
  skipped_rows : Z;
  connection : C;
  handed : list (list TargetRecord)
}.

(** [inserted = insert_batch(connection, batch)] and the two updates that
    follow it; the caller then empties [batch]. *)
Definition load_batch (st : run_state) : run_state :=
  let '(connection', inserted) := insert_batch (connection st) (batch st) in
  {| batch := [];
     total_rows := total_rows st;
     inserted_rows := inserted_rows st + inserted;
     skipped_rows := skipped_rows st + (Z.of_nat (length (batch st)) - inserted);
     connection := connection';
     handed := handed st ++ [batch st] |}.

(** One turn of [for row in reader]. *)
Definition process_row (batch_size : Z) (st : run_state) (row : SourceRecord)
  : run_state :=
  let st1 := {| batch := batch st ++ [map_row row];
                total_rows := total_rows st + 1;
                inserted_rows := inserted_rows st;
                skipped_rows := skipped_rows st;
                connection := connection st;
                handed := handed st |} in
  if batch_size <=? Z.of_nat (length (batch st1)) then load_batch st1 else st1.

(** The whole loop.  The reader yields rows until it is exhausted or raises
    (a line that cannot be decoded; for an empty file, the check of the
    header before the first row); the state at that point comes with the
    exception, if any. *)
Fixpoint read_rows (batch_size : Z) (st : run_state)
    (reader : list (result SourceRecord)) : run_state * option exn :=
  match reader with
  | [] => (st, None)
  | Ok row :: reader' => read_rows batch_size (process_row batch_size st row) reader'
  | Raise e :: _ => (st, Some e)
  end.

Definition with_connection (st : run_state) (c : C) : run_state :=
  {| batch := batch st; total_rows := total_rows st;
     inserted_rows := inserted_rows st; skipped_rows := skipped_rows st;
     connection := c; handed := handed st |}.

(** How a run ends: the summary is printed after [commit], or
    [sys.exit(1)] after [rollback], or [sys.exit(1)] in [truncate_table]. *)
Inductive exit_status :=
| Imported
| RolledBack (e : exn)
| TruncateFailed (e : exn).

Record outcome := { status : exit_status; final : run_state }.

(** [truncate_table]: [TRUNCATE TABLE unite_legale] and a commit of its own. *)
Definition truncate_table (connection : C) : C * result unit :=
  match execute_truncate connection with
  | (c1, Raise e) => (c1, Raise e)
  | (c1, Ok _) => commit c1
  end.

Definition initial_state (connection : C) : run_state :=
  {| batch := []; total_rows := 0; inserted_rows := 0; skipped_rows := 0;
     connection := connection; handed := [] |}.

(** [import_csv] from the point where the file is found and
    [get_db_connection] has returned [opened]. *)
Definition import_csv (opened : C) (reader : list (result SourceRecord))
    (batch_size : Z) (truncate : bool) : outcome :=
  let '(c0, truncated) :=
    if truncate then truncate_table opened else (opened, Ok tt) in
  match truncated with
  | Raise e => {| status := TruncateFailed e; final := initial_state c0 |}
  | Ok _ =>
      let '(st, raised) := read_rows batch_size (initial_state c0) reader in
      match raised with
      | Some e =>
          {| status := RolledBack e;
             final := with_connection st (rollback (connection st)) |}
      | None =>
          let st := match batch st with
                    | [] => st
                    | _ :: _ => load_batch st
                    end in
          match commit (connection st) with
          | (c1, Ok _) => {| status := Imported; final := with_connection st c1 |}
          | (c1, Raise e) =>
              {| status := RolledBack e;
                 final := with_connection st (rollback c1) |}
          end
      end
  end.

End Script.

Arguments run_state C : clear implicits.
Arguments outcome C : clear implicits.

(** *** The MySQL table behind the connection

    [unite_legale] has [siren] as its primary key ([String(9)]).  Under
    [INSERT IGNORE] a row whose key is already in the table is dropped, a
    [NULL] key is stored as the empty string and a key that is too long is
    cut to nine characters.  [visible] is the table as the open transaction
    sees it, [durable] what is committed. *)
Record mysql := {
  durable : list TargetRecord;
  visible : list TargetRecord
}.

Definition row_key (row : TargetRecord) : string :=
  match dict_get row "siren" with
  | Some (Some s) => String.substring 0 9 s
  | _ => ""
  end.

Definition has_key (table : list TargetRecord) (k : string) : bool :=
  bool_decide (k ∈ row_key <$> table).

(** One [INSERT IGNORE] of several rows: the table after it and the number
    of rows that were stored. *)
Fixpoint insert_ignore (table : list TargetRecord) (rows : list TargetRecord)
  : list TargetRecord * Z :=
  match rows with
  | [] => (table, 0)
  | row :: rows' =>
      if has_key table (row_key row) then insert_ignore table rows'
      else
        let '(table', n) := insert_ignore (table ++ [row]) rows' in
        (table', n + 1)
  end.

(** A statement that [rejected] selects fails as a whole and leaves the
    table as it was. *)
Definition mysql_executemany
    (rejected : list string -> list (list (option string)) -> bool)
    (c : mysql) (columns : list string) (values : list (list (option string)))
  : mysql * result Z :=
  if rejected columns values then (c, Raise DatabaseError)
  else
    let '(table', n) := insert_ignore (visible c) (zip columns <$> values) in
    ({| durable := durable c; visible := table' |}, Ok n).

Definition mysql_connection
    (rejected : list string -> list (list (option string)) -> bool)
  : Connection mysql :=
  {| executemany := mysql_executemany rejected;
     execute_truncate c := ({| durable := []; visible := [] |}, Ok tt);
     commit c := ({| durable := visible c; visible := visible c |}, Ok tt);
     rollback c := {| durable := durable c; visible := durable c |} |}.

(** The same table behind a server that can also fail to empty the table
    and to commit: [truncate_fails] and [commit_fails] select the states in
    which it does, and nothing changes then. *)
Definition faulty_connection
    (rejected : list string -> list (list (option string)) -> bool)
    (truncate_fails commit_fails : mysql -> bool)
  : Connection mysql :=
  {| executemany := mysql_executemany rejected;
     execute_truncate c :=
       if truncate_fails c then (c, Raise DatabaseError)
       else ({| durable := []; visible := [] |}, Ok tt);
     commit c :=
       if commit_fails c then (c, Raise DatabaseError)
       else ({| durable := visible c; visible := visible c |}, Ok tt);
     rollback c := {| durable := durable c; visible := durable c |} |}.

End ImportCsv.

(** ** Definitions that the statements below compare the code with *)
Module Spec.
Import ImportCsv.

(** The value the design document gives a mapped column: [NULL] for a field
    that is absent, [None] or empty, the text itself otherwise. *)
Definition null_if_empty (field : option (option string)) : option string :=
  match field with
  | Some (Some value) => if decide (value = "") then None else Some value
  | _ => None
  end.

(** One entry of the translation table applied to a source record. *)
Definition mapped_entry (row : SourceRecord) (entry : string * string)
  : string * option string :=
  (entry.2, null_if_empty (row !! entry.1)).

(** A record that the row mapper has produced. *)
Definition mapped (r : TargetRecord) : Prop :=
  exists row : SourceRecord, r = map_row row.

(** A batch as the design document has it: not empty, made of mapped
    records. *)
Definition well_formed (b : list TargetRecord) : Prop :=
  b <> [] /\ Forall mapped b.

(** The sizes of the batches that [n] records make with batches of
    [batch_size]: [n / batch_size] full ones, then the rest if there is one. *)
Definition batch_sizes (n batch_size : Z) : list nat :=
  replicate (Z.to_nat (n / batch_size)) (Z.to_nat batch_size)
  ++ (if n mod batch_size =? 0 then [] else [Z.to_nat (n mod batch_size)]).

Section Run.
Context {C : Type} `{Connection C}.

(** [--truncate] is not given, or emptying the table works. *)
Definition truncate_ok (opened : C) (truncate : bool) : Prop :=
  truncate = true -> exists c0, truncate_table opened = (c0, Ok tt).

(** The connection at the start of the [try] block. *)
Definition start_connection (opened : C) (truncate : bool) : C :=
  if truncate then (truncate_table opened).1 else opened.

(** The local variables after the loop has taken [rows], all read without
    an exception. *)
Definition state_after (batch_size : Z) (c0 : C) (rows : list SourceRecord)
  : run_state C :=
  foldl (process_row batch_size) (initial_state c0) rows.

(** The number of records passed to [insert_batch] so far. *)
Definition handed_records (st : run_state C) : Z :=
  Z.of_nat (length (concat (handed st))).

Definition counters_le (st st' : run_state C) : Prop :=
  total_rows st <= total_rows st' /\
  inserted_rows st <= inserted_rows st' /\
  skipped_rows st <= skipped_rows st'.

(** The persisted and the skipped rows add up to the records passed to the
    loader, and the rows read are those plus the ones still in the buffer. *)
Definition conserved (st : run_state C) : Prop :=
  inserted_rows st + skipped_rows st = handed_records st /\
  total_rows st = handed_records st + Z.of_nat (length (batch st)).

(** The [if batch:] after the loop. *)
Definition flush (st : run_state C) : run_state C :=
  match batch st with
  | [] => st
  | _ :: _ => load_batch st
  end.

(** The statements for [batches] sent one after the other from connection
    [c] on, with [table] followed along: the connection after them, and the
    table with the rows whose key is new added for each statement that the
    store answered with a row count, left as it is for each statement that
    it answered with an exception. *)
Definition replay (c : C) (table : list TargetRecord)
    (batches : list (list TargetRecord)) : C * list TargetRecord :=
  foldl (fun state b =>
           match executemany state.1 COLUMN_MAPPING.*2
                   ((fun r : TargetRecord => r.*2) <$> b) with
           | (c', Ok _) => (c', (insert_ignore state.2 b).1)
           | (c', Raise _) => (c', state.2)
           end)
        (c, table) batches.

(** What the script relies on in a transactional store.  [tables c] is what
    is behind the connection [c]: the committed table and the table as the
    open transaction sees it.
    - An [INSERT IGNORE] that is answered with a row count has added the
      rows whose key is new to the table of the transaction; one that
      raises has changed nothing.
    - [TRUNCATE TABLE] empties the table at once (it is not part of a
      transaction); when it raises on a connection with nothing uncommitted
      it has changed nothing.
    - [commit] makes the table of the transaction the committed one; when
      it raises it has committed nothing, and the transaction is kept or
      abandoned.
    - [rollback] goes back to the committed table. *)
Record transactional (tables : C -> mysql) : Prop := {
  executemany_done : forall c columns values c' rowcount,
    executemany c columns values = (c', Ok rowcount) ->
    durable (tables c') = durable (tables c) /\
    visible (tables c')
    = (insert_ignore (visible (tables c)) (zip columns <$> values)).1;
  executemany_raised : forall c columns values c' e,
    executemany c columns values = (c', Raise e) -> tables c' = tables c;
  truncate_done : forall c c',
    execute_truncate c = (c', Ok tt) ->
    tables c' = {| durable := []; visible := [] |};
  truncate_raised : forall c c' e,
    execute_truncate c = (c', Raise e) ->
    visible (tables c) = durable (tables c) -> tables c' = tables c;
  commit_done : forall c c',
    commit c = (c', Ok tt) ->
    tables c' = {| durable := visible (tables c); visible := visible (tables c) |};
  commit_raised : forall c c' e,
    commit c = (c', Raise e) ->
    durable (tables c') = durable (tables c) /\
    (visible (tables c') = visible (tables c) \/
     visible (tables c') = durable (tables c));
  rollback_done : forall c,
    tables (rollback c)
    = {| durable := durable (tables c); visible := durable (tables c) |}
}.

(** What the loop and the last flush keep of a run that started on [c0]:
    nothing more is committed, and the connection and the table of the
    transaction are those after the statements of the batches sent so far. *)
Definition replayed (tables : C -> mysql) (c0 : C) (st : run_state C) : Prop :=
  Forall mapped (batch st) /\
  durable (tables (connection st)) = durable (tables c0) /\
  (connection st, visible (tables (connection st)))
  = replay c0 (visible (tables c0)) (handed st).

End Run.

(** The table after the statements for [batches] have been sent one after
    the other: a rejected statement leaves it as it is, an accepted one
    adds the rows whose key is new. *)
Definition apply_batches
    (rejected : list string -> list (list (option string)) -> bool)
    (table : list TargetRecord) (batches : list (list TargetRecord))
  : list TargetRecord :=
  foldl (fun t b =>
           if rejected COLUMN_MAPPING.*2 ((fun r : TargetRecord => r.*2) <$> b)
           then t else (insert_ignore t b).1)
        table batches.

End Spec.

(** ** Sample inputs used by the examples below *)
Module Samples.

(** A table so large that its count is [2 ^ 53 + 1]. *)
Definition huge_count : Z := 9007199254740993.

Definition huge_db : ApiMysql.Session :=
  {| ApiMysql.query_count := fun _ => huge_count;
     ApiMysql.query_all := fun _ _ _ => [] |}.

(** A store with 41 rows for every filter, of which the third page of 20
    has one row. *)
Definition some_row : ApiMysql.UniteLegale :=
  {| ApiMysql.siren := "000000041";
     ApiMysql.nom_unite_legale := None;
     ApiMysql.denomination_unite_legale := Some "ACME";
     ApiMysql.activite_principale_unite_legale := Some "62.01Z";
     ApiMysql.nomenclature_activite_principale_unite_legale := Some "NAFRev2";
     ApiMysql.tranche_effectifs_unite_legale := None;
     ApiMysql.date_creation :=
       Some {| ApiMysql.year := 2001; ApiMysql.month := 2; ApiMysql.day := 3 |} |}.

Definition some_db : ApiMysql.Session :=
  {| ApiMysql.query_count := fun _ => 41;
     ApiMysql.query_all := fun _ offset _ =>
       if offset =? 40 then [some_row] else [] |}.

Definition local_request : ApiMysql.Request :=
  {| ApiMysql.scheme := "http"; ApiMysql.netloc := "localhost:3001" |}.

(** A CSV line that only has a [siren]. *)
Definition line (siren : string) : ImportCsv.SourceRecord :=
  {[ "siren" := Some siren ]}.

Definition five_lines : list ImportCsv.SourceRecord :=
  [line "000000001"; line "000000002"; line "000000003";
   line "000000004"; line "000000005"].

Definition three_lines : list ImportCsv.SourceRecord :=
  [line "000000001"; line "000000002"; line "000000003"].

Definition empty_table : ImportCsv.mysql :=
  {| ImportCsv.durable := []; ImportCsv.visible := [] |}.

(** A store that takes every statement. *)
Definition accept_all : list string -> list (list (option string)) -> bool :=
  fun _ _ => false.

(** A store that rejects every statement. *)
Definition reject_all : list string -> list (list (option string)) -> bool :=
  fun _ _ => true.

(** A store that rejects the statements with a row whose first value is
    [siren]. *)
Definition reject_siren (siren : string)
  : list string -> list (list (option string)) -> bool :=
  fun _ values => bool_decide ([Some siren] ∈ take 1 <$> values).

End Samples.

(** ** [services/api-spark]: the JSON-LD envelope, the token check and the
    paginated statistics endpoint *)
Module SparkService.
Import ImportCsv.

(** A JSON value, as the endpoints return it. *)
#[local] Unset Elimination Schemes.
Inductive json :=
| JNull
| JBool (b : bool)
| JInt (n : Z)
| JStr (s : string)
| JList (items : list json)
| JDict (entries : list (string * json)).
#[local] Set Elimination Schemes.

(** [{**d, **data}]: the keys of [data] are set one after the other. *)
Definition dict_update {V} (d data : pydict V) : pydict V :=
  foldl (fun acc entry => dict_set acc entry.1 entry.2) d data.

(** The ["@context"] of [to_jsonld]. *)
Definition JSONLD_CONTEXT : json :=
  JList [ JStr "https://schema.org/";
          JDict [ ("hydra", JStr "http://www.w3.org/ns/hydra/core#");
                  ("view", JStr "hydra:view");
                  ("first", JStr "hydra:first");
                  ("last", JStr "hydra:last");
                  ("next", JStr "hydra:next");
                  ("previous", JStr "hydra:previous");
                  ("totalItems", JStr "hydra:totalItems") ] ].

Definition to_jsonld (type_name : string) (data : pydict json) : pydict json :=
  dict_update [("@context", JSONLD_CONTEXT); ("@type", JStr type_name)] data.

(** What an endpoint raises: [HTTPException(status_code, detail)], or the
    422 of the framework for a query parameter out of its bounds. *)
Inductive http_error :=
| HTTPException (status_code : Z) (detail : string)
| ValidationError422.

(** [s.split(" ")]. *)
Fixpoint split_space (s : string) : list string :=
  match s with
  | EmptyString => [""]
  | String c s' =>
      if decide (c = " "%char) then "" :: split_space s'
      else match split_space s' with
           | part :: parts => String c part :: parts
           | [] => [String c ""]
           end
  end.

Section Service.
(** [str(e)] for the exceptions of the libraries, and for an
    [HTTPException] raised inside the [try] of [verify_token]. *)
Variable str_exn : exn -> string.
Variable str_http_exception : Z -> string -> string.
(** The environment variable [OAUTH2_URL]. *)
Variable OAUTH2_URL : string.
(** [httpx.AsyncClient().get(url)]: the status code and [response.json()],
    or the exception of the client. *)
Variable http_get : string -> result (Z * result json).

Definition verify_token (auth_header : option string) : http_error + json :=
  match auth_header with
  | None => inl (HTTPException 401 "Missing or invalid Authorization header")
  | Some auth_header =>
      if bool_decide (auth_header = "") || negb (String.prefix "Bearer " auth_header)
      then inl (HTTPException 401 "Missing or invalid Authorization header")
      else
        match split_space auth_header !! 1%nat with
        | None => inl (HTTPException 500 "Internal Server Error")
        | Some token =>
            let failed (text : string) :=
              inl (HTTPException 401 ("Token verification failed: " +:+ text)) in
            match http_get (OAUTH2_URL +:+ "/v1/secure?access_token=" +:+ token) with
            | Raise e => failed (str_exn e)
            | Ok (status_code, body) =>
                if negb (status_code =? 200)
                then failed (str_http_exception 401 "Invalid token")
                else match body with
                     | Ok data => inr data
                     | Raise e => failed (str_exn e)
                     end
            end
        end
  end.

(** A row of the view [global_temp.activity]. *)
Record activity_row := {
  activite_principale_unite_legale : string;
  siren_count : Z
}.

(** The dictionary built for each row of a result. *)
Definition activity_item (row : activity_row) : json :=
  JDict [ ("@type", JStr "AggregateRating");
          ("@id", JStr ("activity:" +:+ activite_principale_unite_legale row));
          ("identifier", JStr (activite_principale_unite_legale row));
          ("ratingCount", JInt (siren_count row)) ].

(** The dictionaries of [create_pagination] as JSON, keys in the order in
    which the function sets them. *)
Definition link (key : string) (url : option string) : list (string * json) :=
  match url with
  | Some u => [(key, JStr u)]
  | None => []
  end.

Definition view_json (v : ApiSpark.view_dict) : json :=
  JDict ([ ("@id", JStr (ApiSpark.view_id v));
           ("@type", JStr (ApiSpark.view_type v)) ]
         ++ link "first" (ApiSpark.first v)
         ++ link "previous" (ApiSpark.previous v)
         ++ link "next" (ApiSpark.next v)
         ++ link "last" (ApiSpark.last v)).

Definition pagination_json (p : ApiSpark.pagination_dict) : json :=
  JDict ([ ("page", JInt (ApiSpark.page p));
           ("limit", JInt (ApiSpark.limit p));
           ("totalItems", JInt (ApiSpark.totalItems p));
           ("total_pages", JInt (ApiSpark.total_pages p));
           ("has_next", JBool (ApiSpark.has_next p));
           ("has_prev", JBool (ApiSpark.has_prev p)) ]
         ++ match ApiSpark.view p with
            | Some v => [("view", view_json v)]
            | None => []
            end).

(** [DataFrame.limit] and [DataFrame.offset] on the rows of a query, in
    their order. *)
Definition df_limit (num : Z) (df : list activity_row) : list activity_row :=
  take (Z.to_nat num) df.
Definition df_offset (num : Z) (df : list activity_row) : list activity_row :=
  drop (Z.to_nat num) df.

Record Request := { scheme : string; netloc : string }.

(** [count_by_activity].  [activity] is what Spark answers to the query of
    the endpoint (the rows with an activity code, by decreasing count), or
    the exception it raises. *)
Definition count_by_activity (activity : result (list activity_row))
    (request : Request) (page limit : Z) : http_error + pydict json :=
  if negb ((1 <=? page) && (1 <=? limit) && (limit <=? 100))
  then inl ValidationError422
  else
    let failed (e : exn) :=
      inl (HTTPException 500 ("Spark query failed: " +:+ str_exn e)) in
    match activity with
    | Raise e => failed e
    | Ok df =>
        let total := Z.of_nat (length df) in
        let offset := (page - 1) * limit in
        let results := df_offset offset (df_limit limit df) in
        let items := activity_item <$> results in
        let base_url :=
          scheme request +:+ "://" +:+ netloc request
            +:+ "/stats/activites/count" in
        match ApiSpark.create_pagination page limit total base_url with
        | Raise e => failed e
        | Ok pagination =>
            inr (to_jsonld "ItemList"
                   [ ("numberOfItems", JInt (Z.of_nat (length items)));
                     ("itemListElement", JList items);
                     ("totalItems", JInt total);
                     ("pagination", pagination_json pagination) ])
        end
    end.

End Service.

End SparkService.

(** ** More sample inputs *)
Module MoreSamples.

(** Forty-five activity codes, each with a count. *)
Definition activity (i : nat) : SparkService.activity_row :=
  {| SparkService.activite_principale_unite_legale := pretty i;
     SparkService.siren_count := 1000 - Z.of_nat i |}.

Definition activities : list SparkService.activity_row :=
  activity <$> seq 0 45.

Definition spark_request : SparkService.Request :=
  {| SparkService.scheme := "http"; SparkService.netloc := "localhost:3002" |}.

(** An OAuth server that knows one token. *)
Definition oauth_server (url : string)
  : result (Z * result SparkService.json) :=
  if decide (url = "http://oauth2:3000/v1/secure?access_token=s3cr3t")
  then Ok (200, Ok (SparkService.JDict [("user", SparkService.JStr "alice")]))
  else Ok (401, Ok SparkService.JNull).

(** A table that already has two companies. *)
Definition two_rows : ImportCsv.mysql :=
  let rows := ImportCsv.map_row <$> [Samples.line "000000002";
                                     Samples.line "000000009"] in
  {| ImportCsv.durable := rows; ImportCsv.visible := rows |}.

(** Five lines, two of them for the same company. *)
Definition lines_with_duplicate : list ImportCsv.SourceRecord :=
  [Samples.line "000000001"; Samples.line "000000002";
   Samples.line "000000001"; Samples.line "000000003";
   Samples.line "000000004"].

End MoreSamples.

(** * Properties *)

(** ** True division followed by [math.ceil] *)
Section PyNumFacts.
Import PyNum.

Lemma round_half_even_le (n d K : Z) :
  0 < d -> n <= K * d -> round_half_even n d <= K.
Proof.
  intros Hd Hn. unfold round_half_even.
  pose proof (Z.div_mod n d ltac:(lia)) as Hdm.
  pose proof (Z.mod_pos_bound n d Hd) as Hr.
  assert (n / d <= K) by nia.
  repeat case_match; try lia.
  all: assert (n / d <> K) by nia; lia.
Qed.

Lemma round_half_even_ge (n d N : Z) :
  0 < d -> d < 2 * (n - N * d) -> N + 1 <= round_half_even n d.
Proof.
  intros Hd Hn. unfold round_half_even.
  pose proof (Z.div_mod n d ltac:(lia)) as Hdm.
  pose proof (Z.mod_pos_bound n d Hd) as Hr.
  assert (N <= n / d) by nia.
  destruct (decide (n / d = N)) as [Heq|Hne].
  - assert (n mod d = n - N * d) as Hm by nia.
    destruct (Z.ltb_spec (2 * (n mod d)) d); [lia|].
    destruct (Z.ltb_spec d (2 * (n mod d))); lia.
  - repeat case_match; lia.
Qed.

(** The exponent that [floor_log2_quot] picks is not above the quotient. *)
Lemma pow2_le_quot_floor (a b : Z) :
  0 < a -> 0 < b -> pow2_le_quot a b (floor_log2_quot a b) = true.
Proof.
  intros Ha Hb. unfold floor_log2_quot.
  destruct (pow2_le_quot a b (Z.log2 a - Z.log2 b)) eqn:Ht; [done|].
  pose proof (Z.log2_spec a Ha) as [Ha1 Ha2].
  pose proof (Z.log2_spec b Hb) as [Hb1 Hb2].
  pose proof (Z.log2_nonneg a) as Hla. pose proof (Z.log2_nonneg b) as Hlb.
  set (la := Z.log2 a) in *. set (lb := Z.log2 b) in *.
  unfold pow2_le_quot.
  destruct (Z.leb_spec 0 (la - lb - 1)) as [Hl|Hl].
  - apply Z.leb_le.
    replace la with ((la - lb - 1) + Z.succ lb) in Ha1 at 1 by lia.
    rewrite Z.pow_add_r in Ha1 by lia.
    assert (0 < 2 ^ (la - lb - 1)) by (apply Z.pow_pos_nonneg; lia).
    nia.
  - apply Z.leb_le.
    replace (Z.succ lb) with (la + - (la - lb - 1)) in Hb2 by lia.
    rewrite Z.pow_add_r in Hb2 by lia.
    assert (0 < 2 ^ (- (la - lb - 1))) by (apply Z.pow_pos_nonneg; lia).
    nia.
Qed.

Lemma round_half_even_nearest (n d : Z) :
  0 < d -> 2 * Z.abs (round_half_even n d * d - n) <= d.
Proof.
  intros Hd. unfold round_half_even.
  pose proof (Z.div_mod n d ltac:(lia)) as Hdm.
  pose proof (Z.mod_pos_bound n d Hd) as Hr.
  repeat case_match; nia.
Qed.

Lemma round_half_even_floor (n d K : Z) :
  0 < d -> K * d <= n -> K <= round_half_even n d.
Proof.
  intros Hd Hn. unfold round_half_even.
  pose proof (Z.div_mod n d ltac:(lia)) as Hdm.
  pose proof (Z.mod_pos_bound n d Hd) as Hr.
  assert (K <= n / d) by nia.
  repeat case_match; lia.
Qed.

Lemma pow2_gt_quot_floor (a b : Z) :
  0 < a -> 0 < b -> pow2_le_quot a b (floor_log2_quot a b + 1) = false.
Proof.
  intros Ha Hb. unfold floor_log2_quot.
  destruct (pow2_le_quot a b (Z.log2 a - Z.log2 b)) eqn:Ht.
  2:{ by replace (Z.log2 a - Z.log2 b - 1 + 1) with (Z.log2 a - Z.log2 b)
        by lia. }
  pose proof (Z.log2_spec a Ha) as [Ha1 Ha2].
  pose proof (Z.log2_spec b Hb) as [Hb1 Hb2].
  pose proof (Z.log2_nonneg a) as Hla. pose proof (Z.log2_nonneg b) as Hlb.
  set (la := Z.log2 a) in *. set (lb := Z.log2 b) in *.
  unfold pow2_le_quot.
  destruct (Z.leb_spec 0 (la - lb + 1)) as [Hl|Hl]; apply Z.leb_gt.
  - replace (Z.succ la) with ((la - lb + 1) + lb) in Ha2 by lia.
    rewrite Z.pow_add_r in Ha2 by lia.
    assert (0 < 2 ^ (la - lb + 1)) by (apply Z.pow_pos_nonneg; lia).
    nia.
  - replace lb with (la + - (la - lb + 1) + 1) in Hb1 at 1 by lia.
    rewrite Z.pow_add_r, Z.pow_add_r in Hb1 by lia.
    assert (0 < 2 ^ (- (la - lb + 1))) by (apply Z.pow_pos_nonneg; lia).
    change (2 ^ 1) with 2 in Hb1.
    rewrite Z.pow_succ_r in Ha2 by lia.
    assert (0 < 2 ^ la) by (apply Z.pow_pos_nonneg; lia).
    nia.
Qed.

(** [round_quot] rounds correctly: the mantissa has at most 53 bits, it has
    exactly 53 unless the exponent is that of the subnormal numbers, and the
    result is within half a unit in the last place of the quotient. *)
Lemma round_quot_correct (a b : Z) :
  0 < a -> 0 < b ->
  let x := round_quot a b in
  mant x <= 2 ^ 53 /\
  (expo x = -1074 \/ 2 ^ 52 <= mant x) /\
  (if 0 <=? expo x
   then 2 * Z.abs (mant x * (b * 2 ^ expo x) - a) <= b * 2 ^ expo x
   else 2 * Z.abs (mant x * b - a * 2 ^ (- expo x)) <= b).
Proof.
  intros Ha Hb.
  pose proof (pow2_le_quot_floor a b Ha Hb) as Hlo.
  pose proof (pow2_gt_quot_floor a b Ha Hb) as Hhi.
  unfold round_quot. set (L := floor_log2_quot a b) in *.
  unfold pow2_le_quot in Hlo, Hhi. simpl.
  assert (2 ^ 53 = 2 * 2 ^ 52) as H53 by reflexivity.
  destruct (Z.leb_spec 0 (Z.max (L - 52) (-1074))) as [He|He].
  - (* a quotient of at least 2^52 *)
    assert (Z.max (L - 52) (-1074) = L - 52) as -> by lia.
    destruct (Z.leb_spec 0 L); [|lia]. destruct (Z.leb_spec 0 (L + 1)); [|lia].
    apply Z.leb_le in Hlo. apply Z.leb_gt in Hhi.
    replace L with (52 + (L - 52)) in Hlo at 1 by lia.
    replace (L + 1) with (53 + (L - 52)) in Hhi by lia.
    rewrite Z.pow_add_r in Hlo, Hhi by lia.
    assert (0 < 2 ^ (L - 52)) as Hp by (apply Z.pow_pos_nonneg; lia).
    set (P := 2 ^ (L - 52)) in *.
    split; [apply round_half_even_le; nia|].
    split; [right; apply round_half_even_floor; nia|].
    apply round_half_even_nearest. nia.
  - set (e := Z.max (L - 52) (-1074)) in *.
    assert (0 < 2 ^ (- e)) as Hp by (apply Z.pow_pos_nonneg; lia).
    split; [|split]; [| |by apply round_half_even_nearest].
    + (* at most 53 bits *)
      apply round_half_even_le; [done|].
      destruct (Z.leb_spec 0 (L + 1)) as [HL1|HL1]; apply Z.leb_gt in Hhi.
      * replace 53 with ((L + 1) + (52 - L)) by lia.
        rewrite Z.pow_add_r by lia.
        assert (2 ^ (- e) <= 2 ^ (52 - L)) by (apply Z.pow_le_mono_r; lia).
        assert (0 < 2 ^ (L + 1)) by (apply Z.pow_pos_nonneg; lia).
        nia.
      * assert (2 ^ (- e) <= 2 ^ (53 + (- (L + 1))))
          by (apply Z.pow_le_mono_r; lia).
        rewrite Z.pow_add_r in * by lia.
        assert (0 < 2 ^ (- (L + 1))) by (apply Z.pow_pos_nonneg; lia).
        nia.
    + (* exactly 53 bits above the subnormal range *)
      destruct (Z.max_spec (L - 52) (-1074)) as [[Hlt Hmax]|[Hge Hmax]];
        [left; exact Hmax|right].
      apply round_half_even_floor; [done|]. fold e in Hmax. rewrite Hmax.
      destruct (Z.leb_spec 0 L) as [HL|HL]; apply Z.leb_le in Hlo.
      * replace 52 with (L + - (L - 52)) at 1 by lia.
        rewrite Z.pow_add_r by lia.
        assert (0 < 2 ^ (- (L - 52))) by (apply Z.pow_pos_nonneg; lia).
        nia.
      * replace (- (L - 52)) with (52 + - L) by lia.
        rewrite Z.pow_add_r by lia.
        assert (0 < 2 ^ (- L)) by (apply Z.pow_pos_nonneg; lia).
        nia.
Qed.

(** Below [2 ^ 53] the quotient is rounded on a grid that contains every
    integer and whose step is less than [2 / b]. *)
Lemma round_quot_small (a b : Z) :
  0 < a < 2 ^ 53 -> 0 < b < 2 ^ 1075 ->
  exists s, 0 <= s /\ b < 2 ^ (s + 1) /\
    round_quot a b = {| mant := round_half_even (a * 2 ^ s) b; expo := - s |}.
Proof.
  intros [Ha Ha53] [Hb Hb1075].
  pose proof (pow2_le_quot_floor a b Ha Hb) as HL.
  unfold round_quot. set (L := floor_log2_quot a b) in *.
  unfold pow2_le_quot in HL.
  assert (L <= 52) as HL52.
  { destruct (Z.leb_spec 0 L) as [H0|H0]; [|lia].
    apply Z.leb_le in HL.
    destruct (Z.le_gt_cases L 52) as [|Hgt]; [done|].
    assert (2 ^ 53 <= 2 ^ L) by (apply Z.pow_le_mono_r; lia).
    nia. }
  exists (- Z.max (L - 52) (-1074)). split; [lia|]. split.
  - destruct (Z.max_spec (L - 52) (-1074)) as [[Hlt ->]|[Hge ->]].
    + replace (- -1074 + 1) with 1075 by lia. done.
    + replace (- (L - 52) + 1) with (53 - L) by lia.
      destruct (Z.leb_spec 0 L) as [H0|H0]; apply Z.leb_le in HL.
      * replace 53 with ((53 - L) + L) in Ha53 by lia.
        rewrite Z.pow_add_r in Ha53 by lia.
        assert (0 < 2 ^ L) by (apply Z.pow_pos_nonneg; lia).
        nia.
      * replace (53 - L) with (53 + - L) by lia.
        rewrite Z.pow_add_r by lia.
        assert (0 < 2 ^ (- L)) by (apply Z.pow_pos_nonneg; lia).
        nia.
  - rewrite Z.opp_involutive.
    destruct (Z.leb_spec 0 (Z.max (L - 52) (-1074))) as [H0|H0]; [|done].
    assert (Z.max (L - 52) (-1074) = 0) as -> by lia.
    simpl. f_equal. f_equal; lia.
Qed.

Lemma ceil_quot_spec (a b : Z) :
  0 < b -> (ceil_quot a b - 1) * b < a <= ceil_quot a b * b.
Proof.
  intros Hb. unfold ceil_quot.
  pose proof (Z.div_mod (- a) b ltac:(lia)).
  pose proof (Z.mod_pos_bound (- a) b Hb). nia.
Qed.

(** For a dividend below [2 ^ 53] the float detour loses nothing:
    [math.ceil(a / b)] is the exact ceiling of the quotient. *)
Lemma ceil_truediv_exact (a b : Z) :
  0 < a < 2 ^ 53 -> 0 < b < 2 ^ 1075 ->
  exists x, truediv a b = Ok x /\ ceil x = ceil_quot a b.
Proof.
  intros Ha Hb.
  destruct (round_quot_small a b Ha Hb) as (s & Hs & Hbs & Hrq).
  pose proof (ceil_quot_spec a b ltac:(lia)) as [Hk1 Hk2].
  set (k := ceil_quot a b) in *.
  assert (0 < 2 ^ s) as Hp by (apply Z.pow_pos_nonneg; lia).
  assert (2 ^ (s + 1) = 2 * 2 ^ s) as Hp1 by (rewrite Z.pow_add_r by lia; lia).
  set (m := round_half_even (a * 2 ^ s) b) in *.
  assert (m <= k * 2 ^ s) as Hup.
  { apply round_half_even_le; [lia|nia]. }
  assert ((k - 1) * 2 ^ s + 1 <= m) as Hlo.
  { apply round_half_even_ge; [lia|nia]. }
  assert (k <= a) as Hka by nia.
  unfold truediv.
  destruct (Z.eqb_spec b 0); [lia|]. destruct (Z.eqb_spec a 0); [lia|].
  rewrite !Z.abs_eq by lia. rewrite Hrq.
  assert (too_large {| mant := m; expo := - s |} = false) as ->.
  { unfold too_large; simpl.
    destruct (Z.leb_spec 0 (- s)).
    - assert (s = 0) as -> by lia. apply Z.leb_gt.
      change (2 ^ 0) with 1 in *.
      assert (2 ^ 53 < 2 ^ 1024) by (apply Z.pow_lt_mono_r; lia). lia.
    - apply Z.leb_gt.
      replace (1024 - - s) with (1024 + s) by lia.
      rewrite Z.pow_add_r by lia.
      assert (2 ^ 53 < 2 ^ 1024) by (apply Z.pow_lt_mono_r; lia). nia. }
  eexists; split; [reflexivity|].
  rewrite !Z.sgn_pos by lia. unfold ceil; simpl.
  replace (1 * 1 * m) with m by lia.
  destruct (Z.leb_spec 0 (- s)).
  - assert (s = 0) as Hs0 by lia. rewrite Hs0 in *.
    change (2 ^ (- 0)) with 1. change (2 ^ 0) with 1 in *. lia.
  - rewrite Z.opp_involutive.
    pose proof (Z.div_mod (- m) (2 ^ s) ltac:(lia)).
    pose proof (Z.mod_pos_bound (- m) (2 ^ s) Hp). nia.
Qed.

(** Some quotients, as CPython prints them with [float.hex]:
    [1/3 = 0x1.5555555555555p-2], [1/10 = 0x1.999999999999ap-4],
    [(2**53 + 1)/1 = 0x1.0p+53], [1/2**1075 = 0.0], and [2**1024/1] raises. *)
Example truediv_one_third :
  truediv 1 3 = Ok {| mant := 0x15555555555555; expo := -54 |}.
Proof. reflexivity. Qed.

Example truediv_one_tenth :
  truediv 1 10 = Ok {| mant := 0x1999999999999a; expo := -56 |}.
Proof. reflexivity. Qed.

Example truediv_tie_to_even :
  truediv (2 ^ 53 + 1) 1 = Ok {| mant := 2 ^ 52; expo := 1 |}.
Proof. reflexivity. Qed.

Example truediv_underflow :
  truediv 1 (2 ^ 1075) = Ok {| mant := 0; expo := -1074 |}.
Proof. vm_compute. reflexivity. Qed.

Example truediv_overflow : truediv (2 ^ 1024) 1 = Raise OverflowError.
Proof. vm_compute. reflexivity. Qed.

Example ceil_45_by_20 : ceil <$> [{| mant := 9; expo := -2 |}] = [3].
Proof. reflexivity. Qed.

(** No [OverflowError] for a dividend below [2 ^ 1023]. *)
Lemma truediv_defined (a b : Z) :
  0 < a < 2 ^ 1023 -> 0 < b -> exists x, truediv a b = Ok x.
Proof.
  intros [Ha Hab] Hb.
  pose proof (pow2_le_quot_floor a b Ha Hb) as HL.
  unfold truediv.
  destruct (Z.eqb_spec b 0); [lia|]. destruct (Z.eqb_spec a 0); [lia|].
  rewrite !Z.abs_eq by lia.
  assert (too_large (round_quot a b) = false) as ->; [|eauto].
  unfold round_quot, too_large. set (L := floor_log2_quot a b) in *.
  set (e := Z.max (L - 52) (-1074)). simpl.
  assert (2 ^ 1024 = 2 * 2 ^ 1023) as H1024 by reflexivity.
  destruct (Z.leb_spec 0 e) as [He|He]; apply Z.leb_gt.
  - assert (0 < 2 ^ e) as Hp by (apply Z.pow_pos_nonneg; lia).
    assert (2 ^ e <= a) as Hpa.
    { unfold pow2_le_quot in HL.
      destruct (Z.leb_spec 0 L); [|lia]. apply Z.leb_le in HL.
      assert (2 ^ e <= 2 ^ L) by (apply Z.pow_le_mono_r; lia).
      assert (0 < 2 ^ L) by (apply Z.pow_pos_nonneg; lia). nia. }
    set (P := 2 ^ e) in *.
    assert (round_half_even a (b * P) <= a / (b * P) + 1) as Hm.
    { apply round_half_even_le; [nia|].
      pose proof (Z.div_mod a (b * P) ltac:(nia)).
      pose proof (Z.mod_pos_bound a (b * P) ltac:(nia)). nia. }
    pose proof (Z.div_mod a (b * P) ltac:(nia)).
    pose proof (Z.mod_pos_bound a (b * P) ltac:(nia)).
    assert (0 <= a / (b * P)) by (apply Z.div_pos; nia).
    nia.
  - replace (1024 - e) with (1024 + - e) by lia.
    rewrite Z.pow_add_r by lia.
    assert (0 < 2 ^ (- e)) as Hp by (apply Z.pow_pos_nonneg; lia).
    set (P := 2 ^ (- e)) in *.
    assert (round_half_even (a * P) b <= a * P) by
      (apply round_half_even_le; [lia|nia]).
    nia.
Qed.

End PyNumFacts.

(** ** The pagination rule *)

Lemma ltb_bool_decide (x y : Z) : (x <? y) = bool_decide (x < y).
Proof.
  destruct (Z.ltb_spec x y);
    [by rewrite bool_decide_eq_true_2|by rewrite bool_decide_eq_false_2; lia].
Qed.

Lemma compute_total_pages_exact (total limit : Z) :
  0 <= total < 2 ^ 53 -> 1 <= limit < 2 ^ 1075 ->
  ApiMysql.compute_total_pages total limit
  = Ok (if total =? 0 then 1 else PyNum.ceil_quot total limit).
Proof.
  intros Ht Hl. unfold ApiMysql.compute_total_pages.
  destruct (Z.ltb_spec 0 total) as [Hpos|Hzero].
  - destruct (ceil_truediv_exact total limit) as (x & -> & Hx); [lia..|].
    simpl. destruct (Z.eqb_spec total 0); [lia|]. by rewrite Hx.
  - by assert (total = 0) as -> by lia.
Qed.

(** The rule of the design document holds on both services as long as the
    item count stays below [2 ^ 53]. *)
Lemma pagination_rule_below_2_53 (page limit total : Z) (base_url : string) :
  0 <= total < 2 ^ 53 -> 1 <= limit < 2 ^ 1075 ->
  exists p,
    ApiSpark.create_pagination page limit total base_url = Ok p /\
    ApiSpark.total_pages p
      = (if total =? 0 then 1 else PyNum.ceil_quot total limit) /\
    ApiSpark.has_next p = bool_decide (page < ApiSpark.total_pages p) /\
    ApiSpark.has_prev p = bool_decide (1 < page).
Proof.
  intros Ht Hl. unfold ApiSpark.create_pagination.
  pose proof (compute_total_pages_exact total limit Ht Hl) as Hc.
  unfold ApiMysql.compute_total_pages in Hc. rewrite Hc. simpl.
  eexists; split; [reflexivity|].
  unfold ApiSpark.pagination_with.
  destruct (decide (base_url = "")); simpl;
    repeat split; try done; apply ltb_bool_decide.
Qed.

Lemma list_endpoint_rule_below_2_53 (db : ApiMysql.Session)
    (f : ApiMysql.filter) (view_base : string) (page limit : Z) :
  1 <= page -> 1 <= limit <= 100 ->
  0 <= ApiMysql.query_count db f < 2 ^ 53 ->
  exists r,
    ApiMysql.list_endpoint db f view_base page limit = Ok r /\
    let p := ApiMysql.pagination r in
    let total := ApiMysql.query_count db f in
    ApiMysql.total_pages p
      = (if total =? 0 then 1 else PyNum.ceil_quot total limit) /\
    ApiMysql.has_next p = bool_decide (page < ApiMysql.total_pages p) /\
    ApiMysql.has_prev p = bool_decide (1 < page).
Proof.
  intros Hp Hl Ht. unfold ApiMysql.list_endpoint, ApiMysql.validate_page_limit.
  destruct (Z.leb_spec 1 page); [|lia].
  destruct (Z.leb_spec 1 limit); [|lia].
  destruct (Z.leb_spec limit 100); [|lia]. simpl.
  rewrite compute_total_pages_exact; [|lia|].
  2:{ assert (100 < 2 ^ 1075) by (apply Z.ltb_lt; reflexivity). lia. }
  simpl. eexists; split; [reflexivity|]. simpl.
  repeat split; try done; apply ltb_bool_decide.
Qed.

(** C3.  The rule [total_pages = ceil(totalItems / limit)] is stated for
    every item count, but [total / limit] is a float division: with
    [totalItems = 2 ^ 53 + 1] and [limit = 1] the exact ceiling is
    [9007199254740993] while both services compute [9007199254740992]. *)
Theorem C3_total_pages_at_2_53_plus_1 :
  PyNum.ceil_quot Samples.huge_count 1 = 9007199254740993 /\
  ApiMysql.compute_total_pages Samples.huge_count 1 = Ok 9007199254740992 /\
  (exists r,
     ApiMysql.get_entreprises_by_activite
       Samples.local_request "62.01Z" 1 1 Samples.huge_db = Ok r /\
     ApiMysql.total_pages (ApiMysql.pagination r) = 9007199254740992) /\
  (exists p,
     ApiSpark.create_pagination 1 1 Samples.huge_count "" = Ok p /\
     ApiSpark.total_pages p = 9007199254740992).
Proof.
  split; [reflexivity|]. split; [reflexivity|].
  split; eexists; (split; [vm_compute; reflexivity|reflexivity]).
Qed.

(** ** Navigation links *)

(** C4.  For every [page >= 1] and [total_pages >= 1], also with [page]
    beyond [total_pages], a view is built; it has the [first] and [previous]
    links exactly when [page > 1] and the [next] and [last] links exactly
    when [page < total_pages].  This holds for [create_hydra_view] and for
    the view [create_pagination] builds (for a non-empty [base_url]), whose
    flags are [has_prev = (page > 1)] and [has_next = (page < total_pages)]. *)
Theorem C4_navigation_links (base_url : string) (page limit total_pages : Z) :
  1 <= page -> 1 <= total_pages ->
  (exists v,
     ApiMysql.create_hydra_view base_url page limit total_pages = Some v /\
     (is_Some (ApiMysql.first v) <-> 1 < page) /\
     (is_Some (ApiMysql.previous v) <-> 1 < page) /\
     (is_Some (ApiMysql.next v) <-> page < total_pages) /\
     (is_Some (ApiMysql.last v) <-> page < total_pages)) /\
  (forall total,
     let p := ApiSpark.pagination_with page limit total total_pages base_url in
     (ApiSpark.has_prev p = true <-> 1 < page) /\
     (ApiSpark.has_next p = true <-> page < total_pages) /\
     (base_url <> "" ->
      exists v,
        ApiSpark.view p = Some v /\
        (is_Some (ApiSpark.first v) <-> 1 < page) /\
        (is_Some (ApiSpark.previous v) <-> 1 < page) /\
        (is_Some (ApiSpark.next v) <-> page < total_pages) /\
        (is_Some (ApiSpark.last v) <-> page < total_pages))).
Proof.
  intros Hpage Htp. split.
  - unfold ApiMysql.create_hydra_view.
    destruct (Z.leb_spec total_pages 0); [lia|].
    eexists; split; [reflexivity|].
    destruct (Z.ltb_spec 1 page), (Z.ltb_spec page total_pages); simpl;
      repeat split; intros; try lia; try done; by eapply is_Some_None.
  - intros total p. subst p. unfold ApiSpark.pagination_with.
    destruct (decide (base_url = "")) as [->|Hne]; simpl.
    + rewrite !Z.ltb_lt. done.
    + rewrite !Z.ltb_lt. repeat split; try done. intros _.
      eexists; split; [reflexivity|].
      destruct (Z.ltb_spec 1 page), (Z.ltb_spec page total_pages); simpl;
        repeat split; intros; try lia; try done; by eapply is_Some_None.
Qed.

Lemma C4_navigation_links_witness :
  1 <= 5 /\ 1 <= 2 /\
  (exists v,
     ApiMysql.create_hydra_view "http://localhost:3001/entreprises/search?nom=abc"
       5 20 2 = Some v /\
     is_Some (ApiMysql.first v) /\ ~ is_Some (ApiMysql.next v)).
Proof.
  split; [lia|]. split; [lia|].
  destruct (C4_navigation_links
              "http://localhost:3001/entreprises/search?nom=abc" 5 20 2)
    as [(v & Hv & Hf & _ & Hn & _) _]; [lia..|].
  exists v. split; [exact Hv|]. split; [apply Hf; lia|].
  intros Hs. apply Hn in Hs. lia.
Defined.

(** ** The row mapper *)
Section RowMapper.
Import ImportCsv Spec.

Lemma dict_set_fresh {V} (d : pydict V) (k : string) (v : V) :
  k ∉ dict_keys d -> dict_set d k v = d ++ [(k, v)].
Proof.
  unfold dict_keys. induction d as [|[k' v'] d IH]; intros Hk; [done|].
  simpl in *. apply not_elem_of_cons in Hk as [Hne Hk].
  destruct (decide (k' = k)); [congruence|]. by rewrite IH.
Qed.

Lemma dict_get_elem_of {V} (d : pydict V) (k : string) (v : V) :
  NoDup (dict_keys d) -> (k, v) ∈ d -> dict_get d k = Some v.
Proof.
  unfold dict_keys. induction d as [|[k' v'] d IH]; intros Hnd Hin.
  - by apply elem_of_nil in Hin.
  - simpl in *. apply NoDup_cons in Hnd as [Hk' Hnd].
    apply elem_of_cons in Hin as [Heq|Hin].
    + inversion Heq; subst. by rewrite decide_True.
    + destruct (decide (k' = k)) as [->|]; [|by apply IH].
      exfalso. apply Hk'. apply list_elem_of_fmap. by exists (k, v).
Qed.

Lemma dict_get_Some_elem_of {V} (d : pydict V) (k : string) (v : V) :
  dict_get d k = Some v -> (k, v) ∈ d.
Proof.
  induction d as [|[k' v'] d IH]; simpl; [done|].
  destruct (decide (k' = k)) as [->|]; intros Hg.
  - inversion Hg; subst. apply elem_of_cons. by left.
  - apply elem_of_cons. right. by apply IH.
Qed.

Lemma map_column_fresh (row : SourceRecord) (acc : TargetRecord)
    (entry : string * string) :
  entry.2 ∉ dict_keys acc ->
  map_column row acc entry = acc ++ [mapped_entry row entry].
Proof.
  destruct entry as [csv_col db_col]. simpl. intros Hfresh.
  unfold map_column, mapped_entry, row_get, null_if_empty. simpl.
  destruct (row !! csv_col) as [[value|]|]; [|by apply dict_set_fresh..].
  destruct (decide (value = "")); by apply dict_set_fresh.
Qed.

Lemma foldl_map_column (row : SourceRecord) (mapping : list (string * string))
    (acc : TargetRecord) :
  NoDup (dict_keys acc ++ mapping.*2) ->
  foldl (map_column row) acc mapping = acc ++ (mapped_entry row <$> mapping).
Proof.
  revert acc. induction mapping as [|entry mapping IH]; intros acc Hnd.
  - by rewrite app_nil_r.
  - simpl in *. rewrite map_column_fresh.
    + rewrite IH; [by rewrite <- app_assoc|].
      unfold dict_keys in *. rewrite fmap_app. simpl.
      by rewrite <- app_assoc.
    + apply NoDup_app in Hnd as (_ & Hdisj & _).
      intros Hin. apply (Hdisj _ Hin). apply elem_of_cons. by left.
Qed.

Lemma COLUMN_MAPPING_columns_NoDup : NoDup COLUMN_MAPPING.*2.
Proof. apply (bool_decide_unpack _). vm_compute. reflexivity. Qed.

(** The mapper is the translation table applied entry by entry. *)
Lemma map_row_entries (row : SourceRecord) :
  map_row row = mapped_entry row <$> COLUMN_MAPPING.
Proof.
  unfold map_row. rewrite foldl_map_column; [done|].
  apply COLUMN_MAPPING_columns_NoDup.
Qed.

Lemma map_row_keys (row : SourceRecord) :
  dict_keys (map_row row) = COLUMN_MAPPING.*2.
Proof.
  rewrite map_row_entries. unfold dict_keys.
  rewrite <- list_fmap_compose. by apply list_fmap_ext.
Qed.

(** C5.  The row mapper is a total function.  For every source record the
    mapped record has exactly the target columns of [COLUMN_MAPPING], each
    once and in the order of the table; a source field that is absent (or
    [None]) or the empty string gives [NULL], never the empty string; any
    other text is carried over as it is; and fields that the table does not
    name have no influence on the result. *)
Theorem C5_row_mapper_total (row : SourceRecord) :
  dict_keys (map_row row) = COLUMN_MAPPING.*2 /\
  NoDup (dict_keys (map_row row)) /\
  (forall csv_col db_col,
     (csv_col, db_col) ∈ COLUMN_MAPPING ->
     dict_get (map_row row) db_col
     = Some (match row !! csv_col with
             | Some (Some value) =>
                 if decide (value = "") then None else Some value
             | _ => None
             end)) /\
  (forall db_col, dict_get (map_row row) db_col <> Some (Some "")) /\
  (forall row' : SourceRecord,
     (forall csv_col, csv_col ∈ COLUMN_MAPPING.*1 ->
                      row' !! csv_col = row !! csv_col) ->
     map_row row' = map_row row).
Proof.
  pose proof (map_row_keys row) as Hkeys.
  assert (NoDup (dict_keys (map_row row))) as Hnd.
  { rewrite Hkeys. apply COLUMN_MAPPING_columns_NoDup. }
  split; [done|]. split; [done|]. split; [|split].
  - intros csv_col db_col Hin. apply dict_get_elem_of; [done|].
    rewrite map_row_entries. apply list_elem_of_fmap.
    exists (csv_col, db_col). by split.
  - intros db_col Hget. apply dict_get_Some_elem_of in Hget.
    rewrite map_row_entries in Hget.
    apply list_elem_of_fmap in Hget as ([csv_col db_col'] & Heq & _).
    unfold mapped_entry, null_if_empty in Heq. simpl in Heq.
    inversion Heq as [[Hk Hv]].
    destruct (row !! csv_col) as [[value|]|]; try done.
    destruct (decide (value = "")); congruence.
  - intros row' Hsame. rewrite !map_row_entries.
    apply Forall_fmap_ext, Forall_forall.
    intros [csv_col db_col] Hin. unfold mapped_entry. simpl.
    rewrite Hsame; [done|]. apply list_elem_of_fmap.
    by exists (csv_col, db_col).
Qed.

End RowMapper.

(** ** Batches *)
Section Batching.
Import ImportCsv Spec.
Context {C : Type} `{Connection C}.

Lemma read_rows_all_ok (batch_size : Z) (rows : list SourceRecord)
    (st : run_state C) :
  read_rows batch_size st (Ok <$> rows)
  = (foldl (process_row batch_size) st rows, None).
Proof. revert st. induction rows as [|row rows IH]; intros st; simpl; auto. Qed.

(** Whether reading the source raised. *)
Lemma read_rows_raised (batch_size : Z) (reader : list (result SourceRecord))
    (st : run_state C) :
  match (read_rows batch_size st reader).2 with
  | Some e => Raise e ∈ reader
  | None => forall e, Raise e ∉ reader
  end.
Proof.
  revert st. induction reader as [|[row|e] reader IH]; intros st; simpl.
  - intros e He. by apply elem_of_nil in He.
  - specialize (IH (process_row batch_size st row)).
    destruct (read_rows _ _ _).2.
    + apply elem_of_cons. by right.
    + intros e He. apply elem_of_cons in He as [?|He]; [done|]. by apply (IH e).
  - apply elem_of_cons. by left.
Qed.

Lemma load_batch_fields (st : run_state C) :
  batch (load_batch st) = [] /\
  handed (load_batch st) = handed st ++ [batch st] /\
  total_rows (load_batch st) = total_rows st /\
  inserted_rows (load_batch st) + skipped_rows (load_batch st)
  = inserted_rows st + skipped_rows st + Z.of_nat (length (batch st)).
Proof.
  unfold load_batch. destruct (insert_batch _ _) as [c' inserted]. simpl.
  repeat split; lia.
Qed.

(** What one turn of the loop does to the buffer and to the log of the
    batches. *)
Lemma process_row_batches (batch_size : Z) (st : run_state C)
    (row : SourceRecord) :
  let full := batch st ++ [map_row row] in
  let st' := process_row batch_size st row in
  total_rows st' = total_rows st + 1 /\
  if batch_size <=? Z.of_nat (length full)
  then batch st' = [] /\ handed st' = handed st ++ [full]
  else batch st' = full /\ handed st' = handed st.
Proof.
  unfold process_row. simpl.
  destruct (batch_size <=? _); [|done].
  match goal with |- context [load_batch ?s] =>
    pose proof (load_batch_fields s) as (-> & -> & -> & _) end.
  done.
Qed.

Lemma succ_div_mod (n b : Z) :
  0 <= n -> 0 < b ->
  (n mod b + 1 = b /\ (n + 1) / b = n / b + 1 /\ (n + 1) mod b = 0) \/
  (n mod b + 1 < b /\ (n + 1) / b = n / b /\ (n + 1) mod b = n mod b + 1).
Proof.
  intros Hn Hb.
  pose proof (Z.div_mod n b ltac:(lia)) as Hdm.
  pose proof (Z.mod_pos_bound n b Hb) as Hr.
  destruct (decide (n mod b + 1 = b)) as [Heq|Hne]; [left|right].
  - assert ((n + 1) / b = n / b + 1) as Hq.
    { symmetry. apply (Z.div_unique_pos _ _ _ 0); lia. }
    split; [done|]. split; [done|].
    symmetry. apply (Z.mod_unique_pos _ _ (n / b + 1)); lia.
  - split; [lia|]. split.
    + symmetry. apply (Z.div_unique_pos _ _ _ (n mod b + 1)); lia.
    + symmetry. apply (Z.mod_unique_pos _ _ (n / b)); lia.
Qed.

(** The state of the buffer and of the log after the loop has taken
    [rows]. *)
Lemma state_after_batches (batch_size : Z) (c0 : C) (rows : list SourceRecord) :
  1 <= batch_size ->
  let st := state_after batch_size c0 rows in
  let n := Z.of_nat (length rows) in
  concat (handed st) ++ batch st = map_row <$> rows /\
  length <$> handed st
  = replicate (Z.to_nat (n / batch_size)) (Z.to_nat batch_size) /\
  Z.of_nat (length (batch st)) = n mod batch_size.
Proof.
  intros Hbs. unfold state_after.
  induction rows as [|row rows IH] using rev_ind; [done|].
  rewrite foldl_app. simpl.
  destruct IH as (Hcat & Hlen & Hbuf).
  set (st := foldl (process_row batch_size) (initial_state c0) rows) in *.
  pose proof (process_row_batches batch_size st row) as [_ Hstep].
  simpl in Hstep. rewrite length_app in Hstep. simpl in Hstep.
  rewrite length_app. simpl. rewrite fmap_app. simpl.
  replace (Z.of_nat (length rows + 1)) with (Z.of_nat (length rows) + 1) by lia.
  set (n := Z.of_nat (length rows)) in *.
  destruct (succ_div_mod n batch_size) as [(Hm & -> & ->)|(Hm & -> & ->)];
    [lia..| |].
  - destruct (Z.leb_spec batch_size (Z.of_nat (length (batch st) + 1)));
      [|lia].
    destruct Hstep as [-> ->].
    rewrite concat_app, fmap_app. simpl. rewrite !app_nil_r, length_app.
    split; [by rewrite <- Hcat, app_assoc|]. split; [|done].
    rewrite Hlen. simpl.
    replace (Z.to_nat (n / batch_size + 1))
      with (Z.to_nat (n / batch_size) + 1)%nat.
    2:{ assert (0 <= n / batch_size) by (apply Z.div_pos; lia). lia. }
    rewrite replicate_add. simpl. f_equal. f_equal. lia.
  - destruct (Z.leb_spec batch_size (Z.of_nat (length (batch st) + 1)));
      [lia|].
    destruct Hstep as [-> ->].
    split; [by rewrite <- Hcat, app_assoc|]. split; [done|].
    rewrite length_app. simpl. lia.
Qed.

Lemma flush_batches (st : run_state C) :
  batch (flush st) = [] /\
  handed (flush st)
  = handed st ++ (match batch st with [] => [] | _ :: _ => [batch st] end) /\
  total_rows (flush st) = total_rows st.
Proof.
  unfold flush. destruct (batch st) eqn:Hb.
  - by rewrite app_nil_r, Hb.
  - pose proof (load_batch_fields st) as (-> & -> & -> & _). by rewrite Hb.
Qed.

(** The state that [import_csv] ends with when no row fails to be read and
    the table could be emptied if that was asked for. *)
Lemma import_csv_all_ok (opened : C) (rows : list SourceRecord)
    (batch_size : Z) (truncate : bool) :
  truncate_ok opened truncate ->
  let o := import_csv opened (Ok <$> rows) batch_size truncate in
  let st :=
    flush (state_after batch_size (start_connection opened truncate) rows) in
  exists c1, final o = with_connection st c1.
Proof.
  intros Hok. unfold import_csv, start_connection.
  assert ((if truncate then truncate_table opened else (opened, Ok tt))
          = (if truncate then (truncate_table opened).1 else opened, Ok tt))
    as ->.
  { destruct truncate; [|done]. destruct Hok as [c0 ->]; done. }
  rewrite read_rows_all_ok. fold (state_after batch_size
    (if truncate then (truncate_table opened).1 else opened) rows).
  set (st := state_after _ _ _). simpl.
  change (match batch st with [] => st | _ :: _ => load_batch st end)
    with (flush st).
  destruct (commit (connection (flush st))) as [c1 [[]|e]]; simpl; eauto.
Qed.

Lemma batch_sizes_of_run (opened : C) (rows : list SourceRecord)
    (batch_size : Z) (truncate : bool) :
  1 <= batch_size -> truncate_ok opened truncate ->
  let o := import_csv opened (Ok <$> rows) batch_size truncate in
  concat (handed (final o)) = map_row <$> rows /\
  length <$> handed (final o)
  = batch_sizes (Z.of_nat (length rows)) batch_size.
Proof.
  intros Hbs Hok.
  destruct (import_csv_all_ok opened rows batch_size truncate Hok)
    as [c1 Hfinal].
  simpl. rewrite Hfinal. simpl.
  pose proof (state_after_batches batch_size
                (start_connection opened truncate) rows Hbs)
    as (Hcat & Hlen & Hbuf).
  simpl in *.
  set (st := state_after batch_size _ rows) in *.
  pose proof (flush_batches st) as (_ & -> & _).
  unfold batch_sizes. rewrite <- Hbuf.
  rewrite concat_app, fmap_app, Hlen.
  destruct (batch st) as [|r b] eqn:Hb.
  - simpl. rewrite !app_nil_r. rewrite app_nil_r in Hcat. done.
  - split.
    + simpl. by rewrite app_nil_r.
    + f_equal. simpl length at 2.
      destruct (Z.eqb_spec (Z.of_nat (S (length b))) 0); [lia|].
      simpl. f_equal. lia.
Qed.

End Batching.

Section BatchClaims.
Import ImportCsv Spec.
Context {C : Type} `{Connection C}.


(** 2,500 records in batches of 1,000: three calls, of 1000, 1000 and 500
    records. *)
Lemma batches_of_2500_by_1000 (opened : C) (rows : list SourceRecord) :
  length rows = 2500%nat ->
  length <$> handed (final (import_csv opened (Ok <$> rows) 1000 false))
  = [1000; 1000; 500]%nat.
Proof.
  intros Hlen.
  pose proof (batch_sizes_of_run opened rows 1000 false) as [_ Hsizes];
    [lia|intros; discriminate|].
  simpl in Hsizes. rewrite Hsizes, Hlen. reflexivity.
Qed.

End BatchClaims.


(** ** The shape of a batch *)
Section BatchShape.
Import ImportCsv Spec.
Context {C : Type} `{Connection C}.

Lemma read_rows_invariant (P : run_state C -> Prop) (batch_size : Z) :
  (forall st row, P st -> P (process_row batch_size st row)) ->
  forall reader st, P st -> P (read_rows batch_size st reader).1.
Proof.
  intros Hstep reader. induction reader as [|[row|e] reader IH];
    intros st Hst; simpl; auto.
Qed.

(** A property of the buffer and of the log that every turn of the loop and
    the last flush keep also holds when [import_csv] is over, however it
    ends. *)
Lemma import_csv_invariant (P : list TargetRecord -> list (list TargetRecord) -> Prop)
    (opened : C) (reader : list (result SourceRecord)) (batch_size : Z)
    (truncate : bool) :
  P [] [] ->
  (forall b hs r, P b hs -> P (b ++ [r]) hs -> mapped r -> P [] (hs ++ [b ++ [r]])) ->
  (forall b hs r, P b hs -> mapped r -> P (b ++ [r]) hs) ->
  (forall b hs, P b hs -> b <> [] -> P [] (hs ++ [b])) ->
  let st := final (import_csv opened reader batch_size truncate) in
  P (batch st) (handed st).
Proof.
  intros Hinit Hfull Hadd Hflush. unfold import_csv.
  destruct (if truncate then _ else _) as [c0 [[]|e]]; [|done].
  pose proof (read_rows_invariant (fun st => P (batch st) (handed st))
                batch_size) as Hinv.
  specialize (Hinv ltac:(
    intros st row Hst;
    pose proof (process_row_batches batch_size st row) as [_ Hs];
    simpl in Hs; destruct (batch_size <=? _);
    destruct Hs as [-> ->];
    [apply Hfull; [done| |by eexists]|];
    apply Hadd; (done || by eexists)) reader (initial_state c0) Hinit).
  destruct (read_rows batch_size (initial_state c0) reader) as [st [e|]];
    simpl in *; [done|].
  assert (P (batch (flush st)) (handed (flush st))) as Hfl.
  { pose proof (flush_batches st) as (-> & -> & _).
    destruct (batch st) as [|r b] eqn:Hb.
    - by rewrite app_nil_r.
    - by apply Hflush. }
  unfold flush in Hfl.
  destruct (commit _) as [c1 [[]|e]]; done.
Qed.

Lemma handed_well_formed (opened : C) (reader : list (result SourceRecord))
    (batch_size : Z) (truncate : bool) :
  Forall well_formed
    (handed (final (import_csv opened reader batch_size truncate))).
Proof.
  pose proof (import_csv_invariant
    (fun b hs => Forall mapped b /\ Forall well_formed hs)
    opened reader batch_size truncate) as Hinv.
  apply Hinv; clear Hinv.
  - done.
  - intros b hs r [Hb Hhs] _ Hr. split; [done|].
    apply Forall_app. split; [done|]. apply Forall_singleton. split.
    + by destruct b.
    + apply Forall_app. split; [done|]. by apply Forall_singleton.
  - intros b hs r [Hb Hhs] Hr. split; [|done].
    apply Forall_app. split; [done|]. by apply Forall_singleton.
  - intros b hs [Hb Hhs] Hne. split; [done|].
    apply Forall_app. split; [done|]. by apply Forall_singleton.
Qed.

Lemma mapM_result_cons {A B} (f : A -> result B) (x : A) (l : list A) :
  mapM (M := result) f (x :: l)
  = f x ≫= fun y => mapM (M := result) f l ≫= fun k => Ok (y :: k).
Proof. reflexivity. Qed.

Lemma bind_Ok {A B} (a : A) (k : A -> result B) : Ok a ≫= k = k a.
Proof. reflexivity. Qed.

Lemma row_values_keys (r : TargetRecord) :
  NoDup (dict_keys r) -> row_values (dict_keys r) r = Ok r.*2.
Proof.
  intros Hnd. unfold row_values, dict_keys.
  assert (forall l : TargetRecord, l ⊆ r ->
    mapM (M := result)
      (fun col => match dict_get r col with
                  | Some v => Ok v
                  | None => Raise KeyError
                  end) l.*1 = Ok l.*2) as Hgen.
  { induction l as [|[k v] l IH]; intros Hsub; [done|].
    rewrite !fmap_cons, mapM_result_cons. simpl fst.
    rewrite (dict_get_elem_of r k v); [|done|].
    2:{ apply Hsub. apply elem_of_cons. by left. }
    rewrite bind_Ok, IH; [done|].
    intros x Hx. apply Hsub. apply elem_of_cons. by right. }
  by apply Hgen.
Qed.

Lemma mapped_row_values (r : TargetRecord) :
  mapped r ->
  dict_keys r = COLUMN_MAPPING.*2 /\
  row_values COLUMN_MAPPING.*2 r = Ok r.*2.
Proof.
  intros [row ->]. pose proof (map_row_keys row) as Hk.
  split; [done|]. rewrite <- Hk. apply row_values_keys.
  rewrite Hk. apply COLUMN_MAPPING_columns_NoDup.
Qed.

(** The value tuples that [insert_batch] computes for a batch of mapped
    records: no [KeyError], the values of each record in column order. *)
Lemma mapped_batch_values (b : list TargetRecord) :
  Forall mapped b ->
  mapM (M := result) (row_values COLUMN_MAPPING.*2) b = Ok ((fun r : TargetRecord => r.*2) <$> b).
Proof.
  induction 1 as [|r b Hr Hb IH]; [done|].
  rewrite mapM_result_cons. destruct (mapped_row_values r Hr) as [_ ->].
  by rewrite bind_Ok, IH.
Qed.

(** C8.  Every batch passed to [insert_batch] is not empty and its records
    all have the same keys in the same order, the target columns of
    [COLUMN_MAPPING] in the order of the table; so the column list taken
    from the first record names exactly the columns of every record, and
    reading each record by that list gives its values without a
    [KeyError]. *)
Theorem C8_batch_shape (opened : C) (reader : list (result SourceRecord))
    (batch_size : Z) (truncate : bool) (b : list TargetRecord) :
  b ∈ handed (final (import_csv opened reader batch_size truncate)) ->
  exists batch_0 rest,
    b = batch_0 :: rest /\
    dict_keys batch_0 = COLUMN_MAPPING.*2 /\
    (forall r, r ∈ b ->
       dict_keys r = dict_keys batch_0 /\
       row_values (dict_keys batch_0) r = Ok r.*2) /\
    mapM (M := result) (row_values (dict_keys batch_0)) b
    = Ok ((fun r : TargetRecord => r.*2) <$> b).
Proof.
  intros Hin.
  pose proof (handed_well_formed opened reader batch_size truncate) as Hwf.
  rewrite Forall_forall in Hwf. destruct (Hwf b Hin) as [Hne Hmapped].
  destruct b as [|batch_0 rest]; [done|].
  exists batch_0, rest. split; [done|].
  assert (dict_keys batch_0 = COLUMN_MAPPING.*2) as Hk0.
  { apply mapped_row_values. by apply Forall_cons in Hmapped as [? _]. }
  rewrite Hk0. split; [done|]. split.
  - intros r Hr. rewrite Forall_forall in Hmapped.
    by apply mapped_row_values, Hmapped.
  - by apply mapped_batch_values.
Qed.

End BatchShape.

(** ** The counters of a run *)
Section Counters.
Import ImportCsv Spec.
Context {C : Type} `{Connection C}.

(** What the claim assumes of the loader: it reports between zero rows and
    the rows it was given. *)
Hypothesis insert_batch_bounds :
  forall (c : C) (b : list TargetRecord),
    0 <= (insert_batch c b).2 <= Z.of_nat (length b).

Lemma load_batch_counters (st : run_state C) :
  counters_le st (load_batch st) /\
  inserted_rows (load_batch st) + skipped_rows (load_batch st)
  = inserted_rows st + skipped_rows st + Z.of_nat (length (batch st)).
Proof.
  pose proof (insert_batch_bounds (connection st) (batch st)) as Hb.
  unfold load_batch, counters_le.
  destruct (insert_batch _ _) as [c' inserted]. simpl in *. lia.
Qed.

Lemma handed_records_snoc (st st' : run_state C) (b : list TargetRecord) :
  handed st' = handed st ++ [b] ->
  handed_records st' = handed_records st + Z.of_nat (length b).
Proof.
  unfold handed_records. intros ->.
  rewrite concat_app, length_app. simpl. rewrite app_nil_r. lia.
Qed.

Lemma load_batch_conserved (st : run_state C) :
  conserved st -> conserved (load_batch st).
Proof.
  intros [Hsum Htotal].
  pose proof (load_batch_fields st) as (Hb & Hh & Ht & Hs).
  pose proof (handed_records_snoc st (load_batch st) (batch st) Hh) as Hr.
  unfold conserved. rewrite Hb, Ht, Hs, Hr. simpl. lia.
Qed.

Lemma process_row_counters (batch_size : Z) (st : run_state C)
    (row : SourceRecord) :
  counters_le st (process_row batch_size st row) /\
  (conserved st -> conserved (process_row batch_size st row)).
Proof.
  unfold process_row.
  set (st1 := {| batch := batch st ++ [map_row row];
                 total_rows := total_rows st + 1;
                 inserted_rows := inserted_rows st;
                 skipped_rows := skipped_rows st;
                 connection := connection st;
                 handed := handed st |}).
  assert (counters_le st st1) as Hle1 by (unfold counters_le; simpl; lia).
  assert (conserved st -> conserved st1) as Hc1.
  { unfold conserved, handed_records. simpl. rewrite length_app. simpl. lia. }
  destruct (batch_size <=? _); [|done].
  pose proof (load_batch_counters st1) as [Hle2 _].
  split.
  - unfold counters_le in *. lia.
  - intros Hc. by apply load_batch_conserved, Hc1.
Qed.

Lemma foldl_process_row_counters (batch_size : Z) (more : list SourceRecord)
    (st : run_state C) :
  counters_le st (foldl (process_row batch_size) st more) /\
  (conserved st -> conserved (foldl (process_row batch_size) st more)).
Proof.
  revert st. induction more as [|row more IH]; intros st; simpl.
  - unfold counters_le. split; [lia|done].
  - destruct (process_row_counters batch_size st row) as [Hle Hc].
    destruct (IH (process_row batch_size st row)) as [Hle' Hc'].
    split; [unfold counters_le in *; lia|auto].
Qed.

Lemma flush_counters (st : run_state C) :
  counters_le st (flush st) /\
  (conserved st ->
   conserved (flush st) /\
   total_rows (flush st) = inserted_rows (flush st) + skipped_rows (flush st)).
Proof.
  unfold flush. destruct (batch st) as [|r b] eqn:Hb.
  - split; [unfold counters_le; lia|].
    intros Hc. split; [done|]. destruct Hc as [Hs Ht]. rewrite Hb in Ht.
    simpl in Ht. lia.
  - pose proof (load_batch_counters st) as [Hle _]. split; [done|].
    intros Hc. apply load_batch_conserved in Hc as Hc'. split; [done|].
    destruct Hc' as [Hs Ht].
    destruct (load_batch_fields st) as (Hb' & _). rewrite Hb' in Ht.
    simpl in Ht. lia.
Qed.

Lemma state_after_total_rows (batch_size : Z) (c0 : C)
    (rows : list SourceRecord) :
  total_rows (state_after batch_size c0 rows) = Z.of_nat (length rows).
Proof.
  unfold state_after.
  induction rows as [|row rows IH] using rev_ind; [done|].
  rewrite foldl_app, length_app. simpl.
  destruct (process_row_batches batch_size
              (foldl (process_row batch_size) (initial_state c0) rows) row)
    as [-> _].
  rewrite IH. lia.
Qed.



End Counters.

(** ** The insert-or-ignore store *)
Section Mysql.
Import ImportCsv Spec.
Variable rejected : list string -> list (list (option string)) -> bool.

Let conn : Connection mysql := mysql_connection rejected.
#[local] Existing Instance conn.

Lemma executemany_mysql (c : mysql) (columns : list string)
    (values : list (list (option string))) :
  executemany c columns values
  = if rejected columns values then (c, Raise DatabaseError)
    else ({| durable := durable c;
             visible := (insert_ignore (visible c) (zip columns <$> values)).1 |},
          Ok (insert_ignore (visible c) (zip columns <$> values)).2).
Proof.
  change (executemany c columns values)
    with (mysql_executemany rejected c columns values).
  unfold mysql_executemany. destruct (rejected columns values); [done|].
  by destruct (insert_ignore _ _).
Qed.

Lemma insert_ignore_count (rows table : list TargetRecord) :
  0 <= (insert_ignore table rows).2 <= Z.of_nat (length rows).
Proof.
  revert table. induction rows as [|row rows IH]; intros table; simpl; [lia|].
  destruct (has_key table (row_key row)).
  - specialize (IH table). lia.
  - specialize (IH (table ++ [row])).
    destruct (insert_ignore (table ++ [row]) rows). simpl in *. lia.
Qed.

(** Nothing leaves the table, and every row of the statement has its key in
    the table afterwards. *)
Lemma insert_ignore_keys (rows table : list TargetRecord) :
  let table' := (insert_ignore table rows).1 in
  (forall k, k ∈ row_key <$> table -> k ∈ row_key <$> table') /\
  (forall r, r ∈ rows -> row_key r ∈ row_key <$> table').
Proof.
  revert table. induction rows as [|row rows IH]; intros table; simpl.
  - split; [done|]. intros r Hr. by apply elem_of_nil in Hr.
  - unfold has_key. case_bool_decide as Hin.
    + destruct (IH table) as [Hkeep Hrows]. split; [done|].
      intros r Hr. apply elem_of_cons in Hr as [->|Hr]; auto.
    + destruct (IH (table ++ [row])) as [Hkeep Hrows].
      destruct (insert_ignore (table ++ [row]) rows) as [t' n]. simpl in *.
      assert (forall k, k ∈ row_key <$> table ++ [row] -> k ∈ row_key <$> t')
        as Hkeep' by done.
      split.
      * intros k Hk. apply Hkeep'. rewrite fmap_app.
        apply elem_of_app. by left.
      * intros r Hr. apply elem_of_cons in Hr as [->|Hr]; [|auto].
        apply Hkeep'. rewrite fmap_app. apply elem_of_app. right.
        simpl. apply elem_of_cons. by left.
Qed.

(** A statement whose rows all have their key in the table stores
    nothing. *)
Lemma insert_ignore_present (rows table : list TargetRecord) :
  (forall r, r ∈ rows -> row_key r ∈ row_key <$> table) ->
  insert_ignore table rows = (table, 0).
Proof.
  induction rows as [|row rows IH]; intros Hall; simpl; [done|].
  unfold has_key. rewrite bool_decide_eq_true_2.
  - apply IH. intros r Hr. apply Hall. apply elem_of_cons. by right.
  - apply Hall. apply elem_of_cons. by left.
Qed.

Lemma mapM_result_length {A B} (f : A -> result B) (l : list A) (l' : list B) :
  mapM (M := result) f l = Ok l' -> length l' = length l.
Proof.
  revert l'. induction l as [|x l IH]; intros l'.
  - intros Heq. by inversion Heq.
  - rewrite mapM_result_cons. destruct (f x) as [y|e]; [|done].
    rewrite bind_Ok. destruct (mapM f l) as [k|e]; [|done].
    rewrite bind_Ok. intros Heq. inversion Heq. simpl. by rewrite (IH k).
Qed.

(** The rows that the store gets for a batch of mapped records are the
    records themselves. *)
Lemma zip_columns_values (b : list TargetRecord) :
  Forall mapped b ->
  zip COLUMN_MAPPING.*2 <$> ((fun r : TargetRecord => r.*2) <$> b) = b.
Proof.
  induction 1 as [|r b Hr Hb IH]; [done|].
  rewrite !fmap_cons, IH. f_equal.
  destruct (mapped_row_values r Hr) as [<- _]. apply zip_fst_snd.
Qed.

(** [insert_batch] on this store, for a batch in the shape [import_csv]
    gives it. *)
Lemma mysql_insert_batch (c : mysql) (b : list TargetRecord) :
  well_formed b ->
  insert_batch c b
  = if rejected COLUMN_MAPPING.*2 ((fun r : TargetRecord => r.*2) <$> b)
    then (c, 0)
    else ({| durable := durable c;
             visible := (insert_ignore (visible c) b).1 |},
          (insert_ignore (visible c) b).2).
Proof.
  intros [Hne Hmapped]. destruct b as [|batch_0 rest]; [done|].
  unfold insert_batch.
  assert (dict_keys batch_0 = COLUMN_MAPPING.*2) as ->.
  { apply mapped_row_values. by apply Forall_cons in Hmapped as [? _]. }
  rewrite (mapped_batch_values _ Hmapped), executemany_mysql.
  destruct (rejected _ _); [done|].
  rewrite (zip_columns_values _ Hmapped).
  pose proof (insert_ignore_count (batch_0 :: rest) (visible c)) as Hn.
  destruct (insert_ignore (visible c) (batch_0 :: rest)) as [t' n].
  simpl in *. f_equal.
  destruct (Z.ltb_spec 0 n); lia.
Qed.

(** The store never reports more rows than it was given. *)
Lemma mysql_insert_batch_bounds (c : mysql) (b : list TargetRecord) :
  0 <= (insert_batch c b).2 <= Z.of_nat (length b).
Proof.
  unfold insert_batch. destruct b as [|batch_0 rest]; [simpl; lia|].
  destruct (mapM _ _) as [values|e] eqn:Hvalues; [|simpl; lia].
  apply mapM_result_length in Hvalues.
  rewrite executemany_mysql.
  destruct (rejected _ _); [simpl; lia|].
  pose proof (insert_ignore_count (zip (dict_keys batch_0) <$> values)
                (visible c)) as Hn.
  rewrite length_fmap, Hvalues in Hn.
  destruct (insert_ignore _ _) as [t' n]. simpl in *.
  destruct (Z.ltb_spec 0 n); lia.
Qed.

Lemma apply_batches_snoc (table : list TargetRecord)
    (batches : list (list TargetRecord)) (b : list TargetRecord) :
  apply_batches rejected table (batches ++ [b])
  = apply_batches rejected (apply_batches rejected table batches) [b].
Proof. unfold apply_batches. by rewrite foldl_app. Qed.

Lemma mysql_load_batch (st : run_state mysql) :
  well_formed (batch st) ->
  durable (connection (load_batch st)) = durable (connection st) /\
  visible (connection (load_batch st))
  = apply_batches rejected (visible (connection st)) [batch st].
Proof.
  intros Hwf. unfold load_batch. rewrite (mysql_insert_batch _ _ Hwf).
  unfold apply_batches. simpl. by destruct (rejected _ _).
Qed.


End Mysql.

(** ** The end of a run on a transactional store *)
Section Transactions.
Import ImportCsv Spec.
Context {C : Type} `{Connection C}.
Variable tables : C -> mysql.
Hypothesis store : transactional tables.

(** For a batch in the shape [import_csv] gives it, [insert_batch] sends one
    statement and keeps the connection that the store answers with. *)
Lemma insert_batch_statement (c : C) (b : list TargetRecord) :
  well_formed b ->
  (insert_batch c b).1
  = (executemany c COLUMN_MAPPING.*2 ((fun r : TargetRecord => r.*2) <$> b)).1.
Proof.
  intros [Hne Hmapped]. destruct b as [|batch_0 rest]; [done|].
  unfold insert_batch.
  assert (dict_keys batch_0 = COLUMN_MAPPING.*2) as ->.
  { apply mapped_row_values. by apply Forall_cons in Hmapped as [? _]. }
  rewrite (mapped_batch_values _ Hmapped).
  by destruct (executemany _ _ _) as [c' [rowcount|e]].
Qed.

Lemma replay_snoc (c : C) (table : list TargetRecord)
    (batches : list (list TargetRecord)) (b : list TargetRecord) :
  replay c table (batches ++ [b])
  = replay (replay c table batches).1 (replay c table batches).2 [b].
Proof. unfold replay. by rewrite foldl_app. Qed.

Lemma load_batch_replay (st : run_state C) :
  well_formed (batch st) ->
  durable (tables (connection (load_batch st)))
  = durable (tables (connection st)) /\
  (connection (load_batch st), visible (tables (connection (load_batch st))))
  = replay (connection st) (visible (tables (connection st))) [batch st].
Proof.
  intros Hwf.
  assert (connection (load_batch st)
          = (insert_batch (connection st) (batch st)).1) as ->.
  { unfold load_batch. by destruct (insert_batch _ _). }
  rewrite (insert_batch_statement _ _ Hwf). unfold replay. simpl.
  destruct (executemany _ _ _) as [c' [rowcount|e]] eqn:Hsent; simpl.
  - destruct (executemany_done _ store _ _ _ _ _ Hsent) as [Hd Hv].
    split; [done|]. rewrite Hv, zip_columns_values; [done|apply Hwf].
  - by rewrite (executemany_raised _ store _ _ _ _ _ Hsent).
Qed.

Lemma load_batch_replayed (c0 : C) (st : run_state C) :
  replayed tables c0 st -> batch st <> [] -> replayed tables c0 (load_batch st).
Proof.
  intros (Hb & Hd & Hv) Hne.
  assert (well_formed (batch st)) as Hwf by done.
  destruct (load_batch_replay st Hwf) as [Hd' Hv'].
  destruct (load_batch_fields st) as (Hb' & Hh' & _).
  unfold replayed. rewrite Hb', Hh', Hd', Hv', replay_snoc, <- Hv.
  done.
Qed.

Lemma process_row_replayed (batch_size : Z) (c0 : C) (st : run_state C)
    (row : SourceRecord) :
  replayed tables c0 st -> replayed tables c0 (process_row batch_size st row).
Proof.
  intros (Hb & Hd & Hv). unfold process_row.
  match goal with |- context [load_batch ?s] => set (st1 := s) end.
  assert (replayed tables c0 st1) as Hst1.
  { split; [|done]. apply Forall_app. split; [done|].
    apply Forall_singleton. by eexists. }
  destruct (batch_size <=? _); [|done].
  apply load_batch_replayed; [done|]. simpl. by destruct (batch st).
Qed.

(** A run that starts at the [try] block. *)
Lemma run_commits_or_rolls_back (c0 : C)
    (reader : list (result SourceRecord)) (batch_size : Z) :
  let o := import_csv c0 reader batch_size false in
  let c' := connection (final o) in
  let sent := replay c0 (visible (tables c0)) (handed (final o)) in
  visible (tables c') = durable (tables c') /\
  ((status o = Imported /\
    (forall e, Raise e ∉ reader) /\
    (commit sent.1).2 = Ok tt /\
    durable (tables c') = sent.2) \/
   (exists e,
      status o = RolledBack e /\
      (Raise e ∈ reader \/
       (forall e', Raise e' ∉ reader) /\ (commit sent.1).2 = Raise e) /\
      durable (tables c') = durable (tables c0))).
Proof.
  unfold import_csv.
  pose proof (read_rows_invariant (replayed tables c0) batch_size
    (fun st row => process_row_replayed batch_size c0 st row)
    reader (initial_state c0)) as Hinv.
  specialize (Hinv ltac:(done)).
  pose proof (read_rows_raised batch_size reader (initial_state c0)) as Hraised.
  destruct (read_rows batch_size (initial_state c0) reader) as [st [e|]];
    simpl in Hinv, Hraised.
  - destruct Hinv as (_ & Hd & _). simpl.
    rewrite (rollback_done _ store). simpl. split; [done|].
    right. exists e. split; [done|]. split; [by left|done].
  - change (match batch st with [] => st | _ :: _ => load_batch st end)
      with (flush st).
    assert (replayed tables c0 (flush st)) as (_ & Hd & Hv).
    { unfold flush. destruct (batch st) as [|r b] eqn:Hbatch; [done|].
      apply load_batch_replayed; [done|]. by rewrite Hbatch. }
    destruct (commit (connection (flush st))) as [c1 [[]|e]] eqn:Hcommit;
      simpl; rewrite <- Hv; simpl; rewrite Hcommit; simpl.
    + rewrite (commit_done _ store _ _ Hcommit). simpl. split; [done|].
      by left.
    + rewrite (rollback_done _ store). simpl. split; [done|].
      right. exists e. split; [done|]. split; [by right|].
      destruct (commit_raised _ store _ _ _ Hcommit) as [-> _]. done.
Qed.

(** C2, as the code has it.  On a transactional store, with a connection
    that has just been opened:
    - whatever the store answers to the statements of the batches, a run
      that got past [truncate_table] ends as imported or as rolled back, and
      what decides is only whether reading the source raised and whether
      the closing commit raised: a batch that the store rejects does not end
      the run;
    - an imported run has read the source to its end and committed the
      table of the start of the transaction with every accepted batch
      applied, a rejected batch adding nothing;
    - a rolled-back run leaves committed exactly what was committed at the
      start of the transaction, and the exception is the one of the reader
      or, the source being read to its end, the one of the commit;
    - when emptying the table fails the run ends in [truncate_table], no row
      read and no batch sent, the table as it was or empty;
    - in every case nothing is left uncommitted. *)
Theorem C2_run_commits_or_rolls_back (opened : C)
    (reader : list (result SourceRecord)) (batch_size : Z) (truncate : bool) :
  visible (tables opened) = durable (tables opened) ->
  let o := import_csv opened reader batch_size truncate in
  let c0 := start_connection opened truncate in
  let c' := connection (final o) in
  let sent := replay c0 (visible (tables c0)) (handed (final o)) in
  visible (tables c') = durable (tables c') /\
  ((status o = Imported /\
    (forall e, Raise e ∉ reader) /\
    (commit sent.1).2 = Ok tt /\
    durable (tables c') = sent.2) \/
   (exists e,
      status o = RolledBack e /\
      (Raise e ∈ reader \/
       (forall e', Raise e' ∉ reader) /\ (commit sent.1).2 = Raise e) /\
      durable (tables c') = durable (tables c0)) \/
   (exists e,
      status o = TruncateFailed e /\
      truncate = true /\
      (truncate_table opened).2 = Raise e /\
      total_rows (final o) = 0 /\
      handed (final o) = [] /\
      (durable (tables c') = durable (tables opened) \/
       durable (tables c') = []))).
Proof.
  intros Hfresh.
  assert (forall c0,
    import_csv opened reader batch_size truncate
    = import_csv c0 reader batch_size false ->
    start_connection opened truncate = c0 ->
    let o := import_csv opened reader batch_size truncate in
    let c0 := start_connection opened truncate in
    let c' := connection (final o) in
    let sent := replay c0 (visible (tables c0)) (handed (final o)) in
    visible (tables c') = durable (tables c') /\
    ((status o = Imported /\
      (forall e, Raise e ∉ reader) /\
      (commit sent.1).2 = Ok tt /\
      durable (tables c') = sent.2) \/
     (exists e,
        status o = RolledBack e /\
        (Raise e ∈ reader \/
         (forall e', Raise e' ∉ reader) /\ (commit sent.1).2 = Raise e) /\
        durable (tables c') = durable (tables c0)) \/
     (exists e,
        status o = TruncateFailed e /\
        truncate = true /\
        (truncate_table opened).2 = Raise e /\
        total_rows (final o) = 0 /\
        handed (final o) = [] /\
        (durable (tables c') = durable (tables opened) \/
         durable (tables c') = [])))) as Htry.
  { intros c0 -> ->.
    destruct (run_commits_or_rolls_back c0 reader batch_size)
      as [Hclean [Himported|Hrolled]].
    - split; [done|]. by left.
    - split; [done|]. right. by left. }
  destruct truncate; [|by apply (Htry opened)].
  destruct (truncate_table opened) as [c0 [[]|e]] eqn:Htruncate.
  - apply (Htry c0).
    + unfold import_csv. by rewrite Htruncate.
    + unfold start_connection. by rewrite Htruncate.
  - unfold import_csv, start_connection. rewrite Htruncate. simpl.
    unfold truncate_table in Htruncate.
    destruct (execute_truncate opened) as [c1 [[]|e1]] eqn:Hemptied.
    + pose proof (truncate_done _ store _ _ Hemptied) as Hc1.
      destruct (commit_raised _ store _ _ _ Htruncate) as [Hd Hv].
      rewrite Hc1 in Hd, Hv. simpl in Hd, Hv.
      split; [destruct Hv; congruence|].
      right. right. exists e. repeat split; auto.
    + injection Htruncate as -> ->.
      rewrite (truncate_raised _ store _ _ _ Hemptied Hfresh).
      split; [done|]. right. right. exists e. repeat split; auto.
Qed.

End Transactions.

(** The table of the section above is such a store, whichever statements,
    truncations and commits fail. *)
Lemma faulty_connection_transactional
    (rejected : list string -> list (list (option string)) -> bool)
    (truncate_fails commit_fails : ImportCsv.mysql -> bool) :
  Spec.transactional
    (H := ImportCsv.faulty_connection rejected truncate_fails commit_fails)
    (fun c => c).
Proof.
  split; simpl.
  - intros c columns values c' rowcount. unfold ImportCsv.mysql_executemany.
    destruct (rejected columns values); [done|].
    destruct (ImportCsv.insert_ignore _ _) as [t n]. by intros [= <- _].
  - intros c columns values c' e. unfold ImportCsv.mysql_executemany.
    destruct (rejected columns values); [by intros [= <- _]|].
    by destruct (ImportCsv.insert_ignore _ _).
  - intros c c'. destruct (truncate_fails c); [done|]. by intros [= <-].
  - intros c c' e. destruct (truncate_fails c); [|done]. by intros [= <- _].
  - intros c c'. destruct (commit_fails c); [done|]. by intros [= <-].
  - intros c c' e. destruct (commit_fails c); [|done].
    intros [= <- _]. auto.
  - done.
Qed.

Lemma mysql_connection_transactional
    (rejected : list string -> list (list (option string)) -> bool) :
  Spec.transactional (H := ImportCsv.mysql_connection rejected) (fun c => c).
Proof.
  exact (faulty_connection_transactional rejected
           (fun _ => false) (fun _ => false)).
Qed.

(** On that table the statements that are answered with an exception are
    those that [rejected] selects. *)
Lemma replay_mysql
    (rejected : list string -> list (list (option string)) -> bool)
    (truncate_fails commit_fails : ImportCsv.mysql -> bool)
    (c : ImportCsv.mysql) (table : list ImportCsv.TargetRecord)
    (batches : list (list ImportCsv.TargetRecord)) :
  (Spec.replay
     (H := ImportCsv.faulty_connection rejected truncate_fails commit_fails)
     c table batches).2
  = Spec.apply_batches rejected table batches.
Proof.
  unfold Spec.replay, Spec.apply_batches.
  revert c table. induction batches as [|b batches IH]; intros c table; [done|].
  simpl. unfold ImportCsv.mysql_executemany at 2.
  destruct (rejected _ _); [apply IH|].
  destruct (ImportCsv.insert_ignore (ImportCsv.visible c) _) as [t n].
  apply IH.
Qed.

(** ** A rejected batch *)
Section Rejection.
Import ImportCsv Spec.
Context {C : Type} `{Connection C}.

(** With a source that is read to its end and a commit that works, the run
    ends with the summary, whatever [executemany] answered on the way. *)
Lemma import_csv_imported (opened : C) (rows : list SourceRecord)
    (batch_size : Z) (truncate : bool) :
  (forall c, exists c', commit c = (c', Ok tt)) ->
  truncate_ok opened truncate ->
  status (import_csv opened (Ok <$> rows) batch_size truncate) = Imported.
Proof.
  intros Hcommit Hok. unfold import_csv.
  assert ((if truncate then truncate_table opened else (opened, Ok tt))
          = (start_connection opened truncate, Ok tt)) as ->.
  { unfold start_connection. destruct truncate; [|done].
    by destruct Hok as [c0 ->]. }
  rewrite read_rows_all_ok.
  match goal with |- context [commit ?c] =>
    destruct (Hcommit c) as [c1 ->] end.
  done.
Qed.

(** C1, as the code has it.  When [executemany] raises on a batch,
    [insert_batch] catches the exception and returns 0; [import_csv] then
    leaves [inserted_rows] as it is and adds the whole length of the batch
    to [skipped_rows].  Nothing tells the controller of the failure: with a
    source read to its end and a working commit the run ends as imported. *)
Theorem C1_rejected_batch_counts_as_skipped :
  (forall (st : run_state C) (c' : C) (e : exn),
     well_formed (batch st) ->
     executemany (connection st) COLUMN_MAPPING.*2
       ((fun r : TargetRecord => r.*2) <$> batch st) = (c', Raise e) ->
     insert_batch (connection st) (batch st) = (c', 0) /\
     inserted_rows (load_batch st) = inserted_rows st /\
     skipped_rows (load_batch st)
     = skipped_rows st + Z.of_nat (length (batch st)) /\
     total_rows (load_batch st) = total_rows st /\
     connection (load_batch st) = c') /\
  ((forall c, exists c', commit c = (c', Ok tt)) ->
   forall opened rows batch_size truncate,
     truncate_ok opened truncate ->
     status (import_csv opened (Ok <$> rows) batch_size truncate) = Imported).
Proof.
  split.
  - intros st c' e [Hne Hmapped] Hraise.
    assert (insert_batch (connection st) (batch st) = (c', 0)) as Hins.
    { unfold insert_batch. destruct (batch st) as [|batch_0 rest]; [done|].
      assert (dict_keys batch_0 = COLUMN_MAPPING.*2) as ->.
      { apply mapped_row_values. by apply Forall_cons in Hmapped as [? _]. }
      by rewrite (mapped_batch_values _ Hmapped), Hraise. }
    split; [done|]. unfold load_batch. rewrite Hins. simpl.
    repeat split; lia.
  - intros Hcommit opened rows batch_size truncate Hok.
    by apply import_csv_imported.
Qed.

End Rejection.

(** ** Runs on sample data *)

Lemma C1_rejected_batch_counts_as_skipped_witness :
  ImportCsv.status
    (ImportCsv.import_csv (H := ImportCsv.mysql_connection Samples.reject_all)
       Samples.empty_table (Ok <$> Samples.five_lines) 2 false)
  = ImportCsv.Imported.
Proof.
  refine (proj2 (C1_rejected_batch_counts_as_skipped
                   (H := ImportCsv.mysql_connection Samples.reject_all))
            _ Samples.empty_table Samples.five_lines 2 false _).
  - intros c. eexists. reflexivity.
  - intros Ht. discriminate Ht.
Defined.

(** C1 as stated fails: the store rejects the only batch of a run of one
    line, and the run ends as imported with that line counted as skipped. *)
Lemma C1_counterexample :
  let c := ImportCsv.mysql_connection Samples.reject_all in
  let b := [ImportCsv.map_row (Samples.line "000000001")] in
  let o := ImportCsv.import_csv (H := c) Samples.empty_table
             [Ok (Samples.line "000000001")] 1000 false in
  (ImportCsv.executemany (Connection := c) Samples.empty_table
     ImportCsv.COLUMN_MAPPING.*2
     ((fun r : ImportCsv.TargetRecord => r.*2) <$> b)).2 = Raise DatabaseError /\
  ImportCsv.handed (ImportCsv.final o) = [b] /\
  ImportCsv.inserted_rows (ImportCsv.final o) = 0 /\
  ImportCsv.skipped_rows (ImportCsv.final o) = 1 /\
  ImportCsv.status o = ImportCsv.Imported.
Proof. vm_compute. repeat split. Qed.

(** C2 as stated fails: of three batches of one line the second is
    rejected; the run ends as imported and the lines of the first and of
    the third batch are committed. *)
Lemma C2_counterexample :
  let c := ImportCsv.mysql_connection (Samples.reject_siren "000000002") in
  let o := ImportCsv.import_csv (H := c) Samples.empty_table
             (Ok <$> Samples.three_lines) 1 false in
  ImportCsv.handed (ImportCsv.final o)
  = (fun l => [ImportCsv.map_row l]) <$> Samples.three_lines /\
  (ImportCsv.executemany (Connection := c) Samples.empty_table
     ImportCsv.COLUMN_MAPPING.*2
     [(ImportCsv.map_row (Samples.line "000000002")).*2]).2
  = Raise DatabaseError /\
  ImportCsv.status o = ImportCsv.Imported /\
  ImportCsv.durable (ImportCsv.connection (ImportCsv.final o))
  = [ImportCsv.map_row (Samples.line "000000001");
     ImportCsv.map_row (Samples.line "000000003")].
Proof. vm_compute. repeat split. Qed.

(** A run on a store that refuses to commit: the source is read to its end
    and the second of three batches is rejected on the way; the run is
    rolled back for the commit, and nothing of it is committed. *)
Lemma C2_run_commits_or_rolls_back_witness :
  let c := ImportCsv.faulty_connection (Samples.reject_siren "000000002")
             (fun _ => false) (fun _ => true) in
  let o := ImportCsv.import_csv (H := c) Samples.empty_table
             (Ok <$> Samples.three_lines) 1 false in
  let c' := ImportCsv.connection (ImportCsv.final o) in
  ImportCsv.status o = ImportCsv.RolledBack DatabaseError /\
  ImportCsv.visible c' = ImportCsv.durable c' /\
  ImportCsv.durable c' = ImportCsv.durable Samples.empty_table.
Proof.
  pose proof (C2_run_commits_or_rolls_back
                (H := ImportCsv.faulty_connection
                        (Samples.reject_siren "000000002")
                        (fun _ => false) (fun _ => true))
                (fun c => c)
                (faulty_connection_transactional _ _ _)
                Samples.empty_table (Ok <$> Samples.three_lines) 1 false
                eq_refl) as [Hclean Hcases].
  split; [vm_compute; reflexivity|]. split; [exact Hclean|].
  destruct Hcases as [(Hs & _)|[(e & _ & _ & Hd)|(e & Hs & _)]].
  - vm_compute in Hs. discriminate Hs.
  - exact Hd.
  - vm_compute in Hs. discriminate Hs.
Defined.

(** The same source on a store that cannot empty the table: with
    [--truncate] the run ends in [truncate_table], and the rows that were in
    the table are still there. *)
Example truncate_failure_ends_the_run :
  let c := ImportCsv.faulty_connection Samples.accept_all
             (fun _ => true) (fun _ => false) in
  let o := ImportCsv.import_csv (H := c) MoreSamples.two_rows
             (Ok <$> Samples.three_lines) 1 true in
  ImportCsv.status o = ImportCsv.TruncateFailed DatabaseError /\
  ImportCsv.handed (ImportCsv.final o) = [] /\
  ImportCsv.connection (ImportCsv.final o) = MoreSamples.two_rows.
Proof. vm_compute. repeat split. Qed.




(** ** The collection view *)
Section CollectionView.
Import ApiMysql.

Lemma list_endpoint_view (db : Session) (f : filter) (view_base : string)
    (page limit : Z) (r : EntrepriseListJSONLD) :
  list_endpoint db f view_base page limit = Ok r ->
  itemListElement r
  = (fun e => from_entreprise (from_orm e))
      <$> query_all db f ((page - 1) * limit) limit /\
  numberOfItems r = Z.of_nat (length (itemListElement r)) /\
  list_totalItems r = query_count db f /\
  totalItems (pagination r) = query_count db f.
Proof.
  unfold list_endpoint.
  destruct (validate_page_limit page limit) as [[]|e]; [|done].
  rewrite bind_Ok.
  destruct (compute_total_pages (query_count db f) limit) as [tp|e]; [|done].
  rewrite bind_Ok. intros Heq. inversion Heq; subst; clear Heq. done.
Qed.

Lemma list_endpoint_defined (db : Session) (f : filter) (view_base : string)
    (page limit : Z) :
  1 <= page -> 1 <= limit <= 100 -> query_count db f < 2 ^ 1023 ->
  exists r, list_endpoint db f view_base page limit = Ok r.
Proof.
  intros Hp Hl Ht. unfold list_endpoint, validate_page_limit.
  destruct (Z.leb_spec 1 page); [|lia].
  destruct (Z.leb_spec 1 limit); [|lia].
  destruct (Z.leb_spec limit 100); [|lia]. simpl andb. cbv iota.
  rewrite bind_Ok. unfold compute_total_pages.
  destruct (Z.ltb_spec 0 (query_count db f)).
  - destruct (truediv_defined (query_count db f) limit) as [x ->]; [lia..|].
    rewrite !bind_Ok. eauto.
  - rewrite bind_Ok. eauto.
Qed.

(** C9.  The view of a list endpoint is put together from its parts: the
    items are the converted rows of this page in the order the store gave
    them, [numberOfItems] is their number (whatever [limit] is) and
    [totalItems] is the count of the store, unchanged.  A view is built for
    every valid page request (the count of a MySQL table is a 64-bit
    integer); for the search, a request is valid when the name has three
    characters or more, and is refused by the framework otherwise. *)
Theorem C9_collection_view (db : Session) (request : Request)
    (code nom : string) (page limit : Z) :
  (forall r,
     get_entreprises_by_activite request code page limit db = Ok r ->
     itemListElement r
     = (fun e => from_entreprise (from_orm e))
         <$> query_all db (ByActivite code) ((page - 1) * limit) limit /\
     numberOfItems r = Z.of_nat (length (itemListElement r)) /\
     list_totalItems r = query_count db (ByActivite code)) /\
  (forall r,
     search_entreprises_by_name request nom page limit db = Ok r ->
     itemListElement r
     = (fun e => from_entreprise (from_orm e))
         <$> query_all db (ByNom ("%" +:+ nom +:+ "%")) ((page - 1) * limit) limit /\
     numberOfItems r = Z.of_nat (length (itemListElement r)) /\
     list_totalItems r = query_count db (ByNom ("%" +:+ nom +:+ "%"))) /\
  (1 <= page -> 1 <= limit <= 100 ->
   (forall f, query_count db f < 2 ^ 63) ->
   (exists r, get_entreprises_by_activite request code page limit db = Ok r) /\
   ((3 <= py_len nom)%nat ->
    exists r, search_entreprises_by_name request nom page limit db = Ok r)) /\
  ((py_len nom < 3)%nat ->
   search_entreprises_by_name request nom page limit db
   = Raise RequestValidationError).
Proof.
  split; [|split; [|split]].
  - intros r Hr. apply list_endpoint_view in Hr. tauto.
  - unfold search_entreprises_by_name.
    destruct (py_len nom <? 3)%nat; [done|].
    intros r Hr. apply list_endpoint_view in Hr. tauto.
  - intros Hp Hl Hcount.
    assert (2 ^ 63 < 2 ^ 1023) as Hpow by (apply Z.pow_lt_mono_r; lia).
    split.
    + apply list_endpoint_defined; try done.
      specialize (Hcount (ByActivite code)). lia.
    + intros Hnom. unfold search_entreprises_by_name.
      destruct (Nat.ltb_spec (py_len nom) 3); [lia|].
      apply list_endpoint_defined; try done.
      specialize (Hcount (ByNom ("%" +:+ nom +:+ "%"))). lia.
  - intros Hnom. unfold search_entreprises_by_name.
    by destruct (Nat.ltb_spec (py_len nom) 3); [|lia].
Qed.

(** A name is measured in characters: a name of two characters is refused
    although its encoding has three bytes, and one of three characters is
    taken. *)
Example search_counts_characters :
  py_len "éa" = 2%nat /\ String.length "éa" = 3%nat /\
  search_entreprises_by_name Samples.local_request "éa" 1 20 Samples.some_db
  = Raise RequestValidationError /\
  exists r,
    search_entreprises_by_name Samples.local_request "été" 1 20 Samples.some_db
    = Ok r.
Proof. repeat split. vm_compute. by eexists. Qed.

End CollectionView.

Lemma C9_collection_view_witness :
  exists r,
    ApiMysql.get_entreprises_by_activite
      Samples.local_request "62.01Z" 3 20 Samples.some_db = Ok r /\
    ApiMysql.numberOfItems r = 1 /\
    ApiMysql.list_totalItems r = 41.
Proof.
  destruct (C9_collection_view Samples.some_db Samples.local_request
              "62.01Z" "abc" 3 20) as (Hact & _ & Hdef & _).
  destruct Hdef as [[r Hr] _].
  - lia.
  - lia.
  - intros f. reflexivity.
  - exists r. split; [exact Hr|].
    destruct (Hact r Hr) as (Hitems & Hn & Ht).
    split; [|exact Ht]. rewrite Hn, Hitems. reflexivity.
Defined.

Lemma C8_batch_shape_witness :
  let b := ImportCsv.map_row <$> take 2 Samples.five_lines in
  exists batch_0 rest,
    b = batch_0 :: rest /\
    ImportCsv.dict_keys batch_0 = ImportCsv.COLUMN_MAPPING.*2.
Proof.
  destruct (C8_batch_shape
              (H := ImportCsv.mysql_connection Samples.accept_all)
              Samples.empty_table (Ok <$> Samples.five_lines) 2 false
              (ImportCsv.map_row <$> take 2 Samples.five_lines))
    as (batch_0 & rest & Hb & Hkeys & _).
  - apply (bool_decide_unpack _). vm_compute. reflexivity.
  - exists batch_0, rest. split; [exact Hb|exact Hkeys].
Defined.

(** * Further properties of the import script *)
Section RunFacts.
Import ImportCsv Spec.
Context {C : Type} `{Connection C}.

(** A property of the state that the start of a run has and that every turn
    of the loop, every call of the loader and the closing commit or
    rollback keep, holds when [import_csv] is over. *)
Lemma import_csv_state_invariant (P : run_state C -> Prop) (opened : C)
    (reader : list (result SourceRecord)) (batch_size : Z) (truncate : bool) :
  (forall c, P (initial_state c)) ->
  (forall st, P st -> P (load_batch st)) ->
  (forall st r, P st ->
     P {| batch := batch st ++ [r]; total_rows := total_rows st + 1;
          inserted_rows := inserted_rows st; skipped_rows := skipped_rows st;
          connection := connection st; handed := handed st |}) ->
  (forall st c, P st -> P (with_connection st c)) ->
  P (final (import_csv opened reader batch_size truncate)).
Proof.
  intros Hinit Hload Hadd Hconn. unfold import_csv.
  destruct (if truncate then _ else _) as [c0 [[]|e]]; [|apply Hinit].
  pose proof (read_rows_invariant P batch_size) as Hinv.
  specialize (Hinv ltac:(
    intros st row Hst; unfold process_row;
    destruct (batch_size <=? _); [apply Hload|]; by apply Hadd)
    reader (initial_state c0) (Hinit c0)).
  destruct (read_rows batch_size (initial_state c0) reader) as [st [e|]];
    simpl in *; [by apply Hconn|].
  assert (P (match batch st with [] => st | _ :: _ => load_batch st end))
    as Hfl by (destruct (batch st); [done|by apply Hload]).
  destruct (commit _) as [c1 [[]|e]]; by apply Hconn.
Qed.

Lemma insert_batch_nonneg (c : C) (b : list TargetRecord) :
  0 <= (insert_batch c b).2.
Proof.
  unfold insert_batch. destruct b as [|batch_0 rest]; [done|].
  destruct (mapM _ _) as [values|e]; [|done].
  destruct (executemany _ _ _) as [c' [rowcount|e]]; [|done].
  simpl. destruct (Z.ltb_spec 0 rowcount); lia.
Qed.

(** Whatever the store answers, also a negative [rowcount] or one above the
    size of the batch, and however the run ends: [inserted_rows] is not
    negative, [inserted_rows + skipped_rows] is the number of records
    passed to the loader, and so [skipped_rows] never exceeds that number. *)
Theorem counters_without_assumption (opened : C)
    (reader : list (result SourceRecord)) (batch_size : Z) (truncate : bool) :
  let st := final (import_csv opened reader batch_size truncate) in
  0 <= inserted_rows st /\
  inserted_rows st + skipped_rows st = handed_records st /\
  skipped_rows st <= handed_records st /\
  handed_records st <= total_rows st.
Proof.
  cut (let st := final (import_csv opened reader batch_size truncate) in
       0 <= inserted_rows st /\
       inserted_rows st + skipped_rows st = handed_records st /\
       skipped_rows st <= handed_records st /\
       handed_records st + Z.of_nat (length (batch st)) = total_rows st /\
       handed_records st <= total_rows st); [simpl; tauto|].
  apply (import_csv_state_invariant
    (fun st => 0 <= inserted_rows st /\
               inserted_rows st + skipped_rows st = handed_records st /\
               skipped_rows st <= handed_records st /\
               handed_records st + Z.of_nat (length (batch st)) = total_rows st /\
               handed_records st <= total_rows st)
    opened reader batch_size truncate).
  - intros c. by unfold handed_records.
  - intros st (Hi & Hsum & Hs & Ht & Hle).
    pose proof (insert_batch_nonneg (connection st) (batch st)) as Hn.
    destruct (load_batch_fields st) as (Hb & Hh & Htot & Hsum').
    pose proof (handed_records_snoc st (load_batch st) (batch st) Hh) as Hr.
    assert (inserted_rows (load_batch st)
            = inserted_rows st + (insert_batch (connection st) (batch st)).2)
      as Hi'.
    { unfold load_batch. by destruct (insert_batch _ _). }
    rewrite Hb, Htot, Hr. simpl. lia.
  - intros st r (Hi & Hsum & Hs & Ht & Hle).
    unfold handed_records in *. simpl. rewrite length_app. simpl. lia.
  - intros st c Hst. exact Hst.
Qed.


(** Between two turns of the loop the buffer never holds a full batch:
    memory use is bounded by [batch_size] records, whatever the length of
    the source. *)
Theorem buffer_below_batch_size (batch_size : Z) (c0 : C)
    (taken : list SourceRecord) :
  1 <= batch_size ->
  Z.of_nat (length (batch (state_after batch_size c0 taken))) < batch_size.
Proof.
  intros Hbs.
  destruct (state_after_batches batch_size c0 taken Hbs) as (_ & _ & ->).
  apply Z.mod_pos_bound. lia.
Qed.

Lemma read_rows_until_raise (batch_size : Z) (rows : list SourceRecord)
    (e : exn) (rest : list (result SourceRecord)) (st : run_state C) :
  read_rows batch_size st ((Ok <$> rows) ++ Raise e :: rest)
  = (foldl (process_row batch_size) st rows, Some e).
Proof. revert st. induction rows as [|row rows IH]; intros st; simpl; auto. Qed.

(** When reading the source raises, the run stops there: what follows in
    the source is not read, the records still in the buffer are not passed
    to the loader and are in neither counter, and the transaction is rolled
    back. *)
Theorem read_error_stops_the_run (opened : C) (rows : list SourceRecord)
    (e : exn) (rest : list (result SourceRecord)) (batch_size : Z)
    (truncate : bool) :
  truncate_ok opened truncate ->
  let o := import_csv opened ((Ok <$> rows) ++ Raise e :: rest)
             batch_size truncate in
  let st := state_after batch_size (start_connection opened truncate) rows in
  status o = RolledBack e /\
  total_rows (final o) = Z.of_nat (length rows) /\
  handed (final o) = handed st /\
  batch (final o) = batch st /\
  inserted_rows (final o) = inserted_rows st /\
  skipped_rows (final o) = skipped_rows st /\
  connection (final o) = rollback (connection st).
Proof.
  intros Hok. unfold import_csv.
  assert ((if truncate then truncate_table opened else (opened, Ok tt))
          = (start_connection opened truncate, Ok tt)) as ->.
  { unfold start_connection. destruct truncate; [|done].
    by destruct Hok as [c0 ->]. }
  rewrite read_rows_until_raise. simpl.
  repeat split; try done. apply state_after_total_rows.
Qed.

End RunFacts.


Lemma buffer_below_batch_size_witness :
  Z.of_nat (length (ImportCsv.batch
    (Spec.state_after (H := ImportCsv.mysql_connection Samples.accept_all)
       2 Samples.empty_table Samples.five_lines))) < 2.
Proof.
  apply (buffer_below_batch_size
           (H := ImportCsv.mysql_connection Samples.accept_all)).
  lia.
Defined.

Lemma read_error_stops_the_run_witness :
  let o := ImportCsv.import_csv
             (H := ImportCsv.mysql_connection Samples.accept_all)
             Samples.empty_table
             ((Ok <$> Samples.three_lines) ++ Raise ReadError
                :: [Ok (Samples.line "000000004")]) 2 false in
  ImportCsv.status o = ImportCsv.RolledBack ReadError /\
  ImportCsv.total_rows (ImportCsv.final o) = 3.
Proof.
  destruct (read_error_stops_the_run
              (H := ImportCsv.mysql_connection Samples.accept_all)
              Samples.empty_table Samples.three_lines ReadError
              [Ok (Samples.line "000000004")] 2 false) as (Hs & Ht & _).
  - intros Htr. discriminate Htr.
  - split; [exact Hs|exact Ht].
Defined.

(** ** Runs against the insert-or-ignore store *)
Section MysqlRuns.
Import ImportCsv Spec.
Variable rejected : list string -> list (list (option string)) -> bool.

Let conn : Connection mysql := mysql_connection rejected.
#[local] Existing Instance conn.

(** Sending the rows in two statements or in one gives the same table and
    the same number of stored rows. *)
Lemma insert_ignore_app (r1 r2 table : list TargetRecord) :
  insert_ignore table (r1 ++ r2)
  = ((insert_ignore (insert_ignore table r1).1 r2).1,
     (insert_ignore table r1).2 + (insert_ignore (insert_ignore table r1).1 r2).2).
Proof.
  revert table. induction r1 as [|row r1 IH]; intros table; simpl.
  - by destruct (insert_ignore table r2).
  - destruct (has_key table (row_key row)); [apply IH|].
    rewrite IH. destruct (insert_ignore (table ++ [row]) r1) as [t1 n1].
    simpl. f_equal. lia.
Qed.

Lemma insert_ignore_grows (rows table : list TargetRecord) :
  let table' := (insert_ignore table rows).1 in
  table `prefix_of` table' /\
  Z.of_nat (length table')
  = Z.of_nat (length table) + (insert_ignore table rows).2 /\
  (NoDup (row_key <$> table) -> NoDup (row_key <$> table')).
Proof.
  revert table. induction rows as [|row rows IH]; intros table; simpl.
  - split; [done|]. split; [lia|done].
  - unfold has_key. case_bool_decide as Hin; [apply IH|].
    destruct (IH (table ++ [row])) as (Hpre & Hlen & Hnd).
    destruct (insert_ignore (table ++ [row]) rows) as [t' n]. simpl in *.
    split; [|split].
    + etrans; [|exact Hpre]. by apply prefix_app_r.
    + rewrite Hlen, length_app. simpl. lia.
    + intros Hnd0. apply Hnd. rewrite fmap_app. simpl.
      apply NoDup_app. split; [done|]. split.
      * intros k Hk Hk'. apply list_elem_of_singleton in Hk'. by subst.
      * apply NoDup_singleton.
Qed.

(** What one call of the loader does to the table and to the counter of
    persisted rows. *)
Lemma mysql_load_batch_step (st : run_state mysql) :
  well_formed (batch st) ->
  let rej := rejected COLUMN_MAPPING.*2
               ((fun r : TargetRecord => r.*2) <$> batch st) in
  let pair := insert_ignore (visible (connection st)) (batch st) in
  durable (connection (load_batch st)) = durable (connection st) /\
  visible (connection (load_batch st))
  = (if rej then visible (connection st) else pair.1) /\
  inserted_rows (load_batch st)
  = inserted_rows st + (if rej then 0 else pair.2).
Proof.
  intros Hwf. unfold load_batch, conn.
  rewrite (mysql_insert_batch rejected _ _ Hwf).
  simpl. destruct (rejected _ _); simpl; repeat split; lia.
Qed.

(** A relation between the batches sent, the table and the counter of
    persisted rows that every statement keeps holds in every state of a
    run, and after the last flush. *)
Lemma mysql_states_invariant
    (Q : list (list TargetRecord) -> list TargetRecord -> Z -> Prop)
    (batch_size : Z) (c0 : mysql) (rows : list SourceRecord) :
  Q [] (visible c0) 0 ->
  (forall hs t n b,
     Q hs t n -> well_formed b ->
     let rej := rejected COLUMN_MAPPING.*2
                  ((fun r : TargetRecord => r.*2) <$> b) in
     Q (hs ++ [b]) (if rej then t else (insert_ignore t b).1)
       (n + (if rej then 0 else (insert_ignore t b).2))) ->
  forall st, st = state_after batch_size c0 rows \/
             st = flush (state_after batch_size c0 rows) ->
  durable (connection st) = durable c0 /\
  Q (handed st) (visible (connection st)) (inserted_rows st).
Proof.
  intros Hinit Hstep.
  assert (forall st, Forall mapped (batch st) /\
                     durable (connection st) = durable c0 /\
                     Q (handed st) (visible (connection st)) (inserted_rows st) ->
                     batch st <> [] ->
                     Forall mapped (batch (load_batch st)) /\
                     durable (connection (load_batch st)) = durable c0 /\
                     Q (handed (load_batch st))
                       (visible (connection (load_batch st)))
                       (inserted_rows (load_batch st))) as Hload.
  { intros st (Hb & Hd & Hq) Hne.
    assert (well_formed (batch st)) as Hwf by done.
    destruct (mysql_load_batch_step st Hwf) as (-> & -> & ->).
    destruct (load_batch_fields st) as (-> & -> & _).
    split; [done|]. split; [done|]. by apply Hstep. }
  assert (Forall mapped (batch (state_after batch_size c0 rows)) /\
          durable (connection (state_after batch_size c0 rows)) = durable c0 /\
          Q (handed (state_after batch_size c0 rows))
            (visible (connection (state_after batch_size c0 rows)))
            (inserted_rows (state_after batch_size c0 rows))) as Hstate.
  { unfold state_after.
    induction rows as [|row rows IH] using rev_ind; [done|].
    rewrite foldl_app. simpl.
    set (st := foldl (process_row batch_size) (initial_state c0) rows) in *.
    destruct IH as (Hb & Hd & Hq). unfold process_row.
    match goal with |- context [load_batch ?s] => set (st1 := s) end.
    assert (Forall mapped (batch st1)) as Hb1.
    { apply Forall_app. split; [done|]. apply Forall_singleton. by eexists. }
    destruct (batch_size <=? _); [|exact (conj Hb1 (conj Hd Hq))].
    apply Hload; [exact (conj Hb1 (conj Hd Hq))|].
    subst st1. simpl. by destruct (batch st). }
  intros st [->| ->]; [tauto|].
  unfold flush. destruct (decide (batch (state_after batch_size c0 rows) = []))
    as [->|Hne]; [tauto|].
  destruct (batch (state_after batch_size c0 rows)) eqn:Hb; [done|].
  rewrite <- Hb in Hstate. apply Hload in Hstate; [tauto|by rewrite Hb].
Qed.

(** On this store the commit always works, so a source read to its end
    gives an imported run, whose final state is the flushed state with the
    table committed. *)
Lemma mysql_import_final (opened : mysql) (rows : list SourceRecord)
    (batch_size : Z) (truncate : bool) :
  let st := flush (state_after batch_size
                     (start_connection opened truncate) rows) in
  import_csv opened (Ok <$> rows) batch_size truncate
  = {| status := Imported;
       final := with_connection st
                  {| durable := visible (connection st);
                     visible := visible (connection st) |} |}.
Proof.
  unfold import_csv, start_connection.
  assert ((if truncate then truncate_table opened else (opened, Ok tt))
          = (if truncate then (truncate_table opened).1 else opened, Ok tt))
    as -> by (by destruct truncate).
  rewrite read_rows_all_ok. reflexivity.
Qed.

(** The counter of persisted rows is exact on this store: an imported run
    makes the table longer by [inserted_rows] rows, whatever was rejected
    on the way. *)
Theorem inserted_rows_is_table_growth (opened : mysql)
    (rows : list SourceRecord) (batch_size : Z) (truncate : bool) :
  let o := import_csv opened (Ok <$> rows) batch_size truncate in
  let before := visible (start_connection opened truncate) in
  Z.of_nat (length (durable (connection (final o))))
  = Z.of_nat (length before) + inserted_rows (final o).
Proof.
  simpl. rewrite mysql_import_final. simpl.
  set (c0 := start_connection opened truncate).
  destruct (mysql_states_invariant
              (fun _ t n => Z.of_nat (length t)
                            = Z.of_nat (length (visible c0)) + n)
              batch_size c0 rows) with (st := flush (state_after batch_size c0 rows))
    as [_ Hq]; [lia| |by right|exact Hq].
  intros hs t n b Hq _ rej.
  destruct (insert_ignore_grows b t) as (_ & Hlen & _).
  destruct rej; lia.
Qed.

(** A run without [--truncate] never removes, changes or reorders a row that
    was in the table: the old table is the beginning of the new one. *)
Theorem existing_rows_are_kept (opened : mysql) (rows : list SourceRecord)
    (batch_size : Z) :
  let o := import_csv opened (Ok <$> rows) batch_size false in
  visible opened `prefix_of` durable (connection (final o)).
Proof.
  simpl. rewrite mysql_import_final. simpl.
  destruct (mysql_states_invariant
              (fun _ t _ => visible opened `prefix_of` t)
              batch_size opened rows)
    with (st := flush (state_after batch_size opened rows))
    as [_ Hq]; [done| |by right|exact Hq].
  intros hs t n b Hq _ rej.
  destruct (insert_ignore_grows b t) as (Hpre & _).
  destruct rej; [done|]. by etrans.
Qed.


End MysqlRuns.

Section AllRecords.
Import ImportCsv Spec.
Context {C : Type} `{Connection C}.

(** All the records of the source, in order, are in the batches and in the
    buffer, for every batch size. *)
Lemma state_after_concat (batch_size : Z) (c0 : C)
    (rows : list SourceRecord) :
  concat (handed (state_after batch_size c0 rows))
    ++ batch (state_after batch_size c0 rows) = map_row <$> rows /\
  concat (handed (flush (state_after batch_size c0 rows))) = map_row <$> rows.
Proof.
  assert (concat (handed (state_after batch_size c0 rows))
            ++ batch (state_after batch_size c0 rows) = map_row <$> rows)
    as Hcat.
  { unfold state_after.
    induction rows as [|row rows IH] using rev_ind; [done|].
    rewrite foldl_app, fmap_app. simpl.
    set (st := foldl (process_row batch_size) (initial_state c0) rows) in *.
    pose proof (process_row_batches batch_size st row) as [_ Hstep].
    cbv zeta in Hstep.
    destruct (batch_size <=? _); destruct Hstep as [-> ->].
    - rewrite concat_app. simpl. rewrite !app_nil_r.
      by rewrite app_assoc, IH.
    - by rewrite app_assoc, IH. }
  split; [done|].
  destruct (flush_batches (state_after batch_size c0 rows)) as (_ & -> & _).
  rewrite <- Hcat, concat_app.
  destruct (batch (state_after batch_size c0 rows)); simpl;
    by rewrite ?app_nil_r.
Qed.

End AllRecords.

Section MysqlRunsAgain.
Import ImportCsv Spec.
Variable rejected : list string -> list (list (option string)) -> bool.

Let conn : Connection mysql := mysql_connection rejected.
#[local] Existing Instance conn.

(** [--truncate] is not part of the transaction: when reading the source
    raises after the table was emptied, the rollback does not bring the old
    rows back and the table is left empty. *)
Theorem truncate_survives_rollback (opened : mysql) (rows : list SourceRecord)
    (e : exn) (rest : list (result SourceRecord)) (batch_size : Z) :
  let o := import_csv opened ((Ok <$> rows) ++ Raise e :: rest)
             batch_size true in
  status o = RolledBack e /\
  durable (connection (final o)) = [] /\
  visible (connection (final o)) = [].
Proof.
  unfold import_csv. simpl truncate_table.
  change (truncate_table opened)
    with ({| durable := []; visible := [] |}, @Ok unit tt).
  simpl. rewrite read_rows_until_raise. simpl.
  destruct (mysql_states_invariant rejected (fun _ _ _ => True) batch_size
              {| durable := []; visible := [] |} rows)
    with (st := state_after batch_size {| durable := []; visible := [] |} rows)
    as [Hd _]; [done|done|by left|].
  unfold state_after in Hd. by rewrite Hd.
Qed.

Hypothesis accepting : forall columns values, rejected columns values = false.

(** With a store that rejects nothing, the run is the one statement that
    inserts all the records at once. *)
Lemma accepting_run (opened : mysql) (rows : list SourceRecord)
    (batch_size : Z) (truncate : bool) :
  let o := import_csv opened (Ok <$> rows) batch_size truncate in
  let pair := insert_ignore (visible (start_connection opened truncate))
                (map_row <$> rows) in
  status o = Imported /\
  connection (final o) = {| durable := pair.1; visible := pair.1 |} /\
  total_rows (final o) = Z.of_nat (length rows) /\
  inserted_rows (final o) = pair.2 /\
  skipped_rows (final o) = Z.of_nat (length rows) - pair.2.
Proof.
  simpl. unfold conn. rewrite mysql_import_final. simpl.
  set (c0 := start_connection opened truncate).
  set (st := flush (state_after batch_size c0 rows)).
  destruct (mysql_states_invariant rejected
              (fun hs t n => (t, n) = insert_ignore (visible c0) (concat hs))
              batch_size c0 rows) with (st := st)
    as [_ Hq]; [done| |by right|].
  { intros hs t n b Hq _. rewrite accepting. simpl.
    rewrite concat_app, insert_ignore_app. simpl. rewrite app_nil_r.
    by rewrite <- Hq. }
  destruct (state_after_concat (H := mysql_connection rejected)
              batch_size c0 rows) as [_ Hcat].
  fold st in Hcat. rewrite Hcat in Hq.
  destruct (insert_ignore (visible c0) (map_row <$> rows)) as [t n].
  inversion Hq as [[Ht Hn]]. simpl.
  pose proof (mysql_insert_batch_bounds rejected) as Hbounds.
  assert (conserved (state_after batch_size c0 rows)) as Hc.
  { apply (foldl_process_row_counters Hbounds batch_size rows (initial_state c0)).
    by unfold conserved, handed_records. }
  destruct (flush_counters Hbounds (state_after batch_size c0 rows))
    as [_ Hfl].
  destruct (Hfl Hc) as [_ Heq]. fold st in Heq.
  destruct (flush_batches (state_after batch_size c0 rows)) as (_ & _ & Htot).
  fold st in Htot.
  rewrite (state_after_total_rows batch_size c0 rows) in Htot.
  repeat split; try done. subst st. unfold conn in *. lia.
Qed.

(** The batch size is only a matter of speed: with a store that rejects
    nothing, two runs over the same source that differ in their batch size
    end with the same table and the same counters. *)
Theorem batch_size_does_not_change_the_result (opened : mysql)
    (rows : list SourceRecord) (batch_size batch_size' : Z) (truncate : bool) :
  let o := import_csv opened (Ok <$> rows) batch_size truncate in
  let o' := import_csv opened (Ok <$> rows) batch_size' truncate in
  status o = status o' /\
  connection (final o) = connection (final o') /\
  total_rows (final o) = total_rows (final o') /\
  inserted_rows (final o) = inserted_rows (final o') /\
  skipped_rows (final o) = skipped_rows (final o').
Proof.
  pose proof (accepting_run opened rows batch_size truncate) as Hrun.
  pose proof (accepting_run opened rows batch_size' truncate) as Hrun'.
  cbv zeta in *.
  destruct Hrun as (-> & -> & -> & -> & ->).
  destruct Hrun' as (-> & -> & -> & -> & ->).
  done.
Qed.

(** Importing the same source a second time, on the table the first run
    left and with any batch size, persists nothing: every row is counted as
    skipped and the table is the one the first run left. *)
Theorem second_run_is_idempotent (opened : mysql) (rows : list SourceRecord)
    (batch_size batch_size' : Z) (truncate : bool) :
  let o := import_csv opened (Ok <$> rows) batch_size truncate in
  let o' := import_csv (connection (final o)) (Ok <$> rows) batch_size' false in
  status o' = Imported /\
  inserted_rows (final o') = 0 /\
  skipped_rows (final o') = Z.of_nat (length rows) /\
  connection (final o') = connection (final o).
Proof.
  pose proof (accepting_run opened rows batch_size truncate) as Hrun.
  cbv zeta in *. destruct Hrun as (_ & Hconn & _). rewrite Hconn.
  set (t0 := visible (start_connection opened truncate)) in *.
  set (t1 := (insert_ignore t0 (map_row <$> rows)).1).
  pose proof (accepting_run {| durable := t1; visible := t1 |} rows
                batch_size' false) as Hrun'.
  cbv zeta in Hrun'. destruct Hrun' as (Hs & Hc & _ & Hi & Hk).
  unfold start_connection in Hc, Hi, Hk. simpl visible in Hc, Hi, Hk.
  assert (insert_ignore t1 (map_row <$> rows) = (t1, 0)) as Hnone.
  { apply insert_ignore_present. intros r Hr.
    by apply (insert_ignore_keys (map_row <$> rows) t0). }
  rewrite Hnone in Hc, Hi, Hk. simpl fst in *. simpl snd in *.
  rewrite Hs, Hc, Hi, Hk. repeat split; lia.
Qed.

End MysqlRunsAgain.

(** * Further properties of the paginated views *)
Section PageCount.
Import PyNum.

(** The ceiling of the quotient of two positive integers is at least one,
    also after the rounding of the float division (the divisor must not be
    so large that the quotient underflows to zero). *)
Lemma ceil_truediv_pos (a b : Z) (x : pyfloat) :
  0 < a -> 0 < b < 2 ^ 1075 -> truediv a b = Ok x -> 1 <= ceil x.
Proof.
  intros Ha [Hb Hb1075]. unfold truediv.
  destruct (Z.eqb_spec b 0); [lia|]. destruct (Z.eqb_spec a 0); [lia|].
  rewrite !Z.abs_eq, !Z.sgn_pos by lia.
  assert (1 <= mant (round_quot a b)) as Hm.
  { destruct (round_quot_correct a b Ha Hb) as (_ & [He|Hbig] & _).
    - unfold round_quot in *. simpl in *. rewrite He.
      change (0 <=? -1074) with false. cbv iota.
      change (- -1074) with 1074.
      apply (round_half_even_ge _ _ 0); [lia|].
      assert (2 ^ 1075 = 2 * 2 ^ 1074) as E by reflexivity.
      rewrite E in Hb1075.
      assert (0 < 2 ^ 1074) by reflexivity. nia.
    - assert (1 <= 2 ^ 52) by (apply Z.leb_le; reflexivity). lia. }
  destruct (round_quot a b) as [m e]. simpl in Hm.
  destruct (too_large _); [done|].
  intros Heq. inversion Heq; subst; clear Heq.
  unfold ceil. simpl. replace (1 * 1 * m) with m by lia.
  destruct (Z.leb_spec 0 e) as [He|He].
  - assert (0 < 2 ^ e) by (apply Z.pow_pos_nonneg; lia). nia.
  - assert (0 < 2 ^ (- e)) as Hp by (apply Z.pow_pos_nonneg; lia).
    pose proof (Z.div_mod (- m) (2 ^ (- e)) ltac:(lia)).
    pose proof (Z.mod_pos_bound (- m) (2 ^ (- e)) Hp).
    nia.
Qed.

Lemma compute_total_pages_pos (total limit tp : Z) :
  1 <= limit < 2 ^ 1075 ->
  ApiMysql.compute_total_pages total limit = Ok tp -> 1 <= tp.
Proof.
  intros Hl. unfold ApiMysql.compute_total_pages.
  destruct (Z.ltb_spec 0 total) as [Hpos|_].
  - destruct (truediv total limit) as [x|e] eqn:Hx; [|done].
    rewrite bind_Ok. intros Heq. inversion Heq; subst.
    apply (ceil_truediv_pos total limit); [lia|lia|done].
  - intros Heq. inversion Heq. lia.
Qed.

End PageCount.

Section ListResponse.
Import ApiMysql.

Lemma list_endpoint_has_a_view (db : Session) (f : filter) (view_base : string)
    (page limit : Z) (r : EntrepriseListJSONLD) :
  list_endpoint db f view_base page limit = Ok r ->
  1 <= total_pages (pagination r) /\
  exists v, view (pagination r) = Some v /\
            view_id v = page_url view_base page limit.
Proof.
  unfold list_endpoint, validate_page_limit.
  destruct (Z.leb_spec 1 page); [|done].
  destruct (Z.leb_spec 1 limit); [|done].
  destruct (Z.leb_spec limit 100); [|done]. simpl andb. cbv iota.
  rewrite bind_Ok.
  destruct (compute_total_pages (query_count db f) limit) as [tp|e] eqn:Htp;
    [|done].
  rewrite bind_Ok. intros Heq. inversion Heq; subst; clear Heq. simpl.
  assert (1 <= tp) as Hpos.
  { apply (compute_total_pages_pos (query_count db f) limit); [|done].
    assert (100 < 2 ^ 1075) by (apply Z.ltb_lt; reflexivity). lia. }
  split; [done|]. unfold create_hydra_view.
  destruct (Z.leb_spec tp 0); [lia|].
  eexists; split; [reflexivity|].
  by destruct (1 <? page), (page <? tp).
Qed.

(** Every answer of a list endpoint counts at least one page and carries a
    view whose [@id] is the URL of the page asked for, whatever the count
    of the store is (zero, negative, or less than the pages before the one
    asked for): the [None] of [create_hydra_view] never reaches a
    response. *)
Theorem list_response_has_a_view (db : Session) (request : Request)
    (code nom : string) (page limit : Z) (r : EntrepriseListJSONLD) :
  (get_entreprises_by_activite request code page limit db = Ok r ->
   1 <= total_pages (pagination r) /\
   exists v, view (pagination r) = Some v /\
             view_id v = page_url
               (scheme request +:+ "://" +:+ netloc request
                  +:+ "/entreprises/activite/" +:+ code) page limit) /\
  (search_entreprises_by_name request nom page limit db = Ok r ->
   1 <= total_pages (pagination r) /\
   exists v, view (pagination r) = Some v /\
             view_id v = page_url
               ((scheme request +:+ "://" +:+ netloc request
                   +:+ "/entreprises/search") +:+ "?nom=" +:+ nom) page limit).
Proof.
  split; intros Hr.
  - by apply list_endpoint_has_a_view in Hr.
  - unfold search_entreprises_by_name in Hr.
    destruct (py_len nom <? 3)%nat; [done|].
    by apply list_endpoint_has_a_view in Hr.
Qed.

(** Following [next] and then [previous] comes back: on a page that is not
    the last one, [next] is the [@id] of the view of the following page,
    whose [previous] is the [@id] of this one; [first] and [last] are the
    [@id]s of the views of page 1 and of the last page. *)
Theorem hydra_links_round_trip (base_url : string) (page limit total_pages : Z) :
  1 <= page -> page < total_pages ->
  exists v v',
    create_hydra_view base_url page limit total_pages = Some v /\
    create_hydra_view base_url (page + 1) limit total_pages = Some v' /\
    next v = Some (view_id v') /\
    previous v' = Some (view_id v) /\
    first v' = view_id <$> create_hydra_view base_url 1 limit total_pages /\
    last v = view_id <$> create_hydra_view base_url total_pages limit total_pages.
Proof.
  intros Hp Hlt. unfold create_hydra_view.
  destruct (Z.leb_spec total_pages 0); [lia|].
  eexists _, _. split; [reflexivity|]. split; [reflexivity|].
  destruct (Z.ltb_spec page total_pages); [|lia].
  destruct (Z.ltb_spec 1 (page + 1)); [|lia].
  replace (page + 1 - 1) with page by lia.
  destruct (1 <? page), (page + 1 <? total_pages), (1 <? 1),
    (1 <? total_pages), (total_pages <? total_pages); by simpl.
Qed.

End ListResponse.

Lemma hydra_links_round_trip_witness :
  exists v v',
    ApiMysql.create_hydra_view "http://h/x" 2 20 3 = Some v /\
    ApiMysql.create_hydra_view "http://h/x" 3 20 3 = Some v' /\
    ApiMysql.next v = Some (ApiMysql.view_id v') /\
    ApiMysql.previous v' = Some (ApiMysql.view_id v).
Proof.
  destruct (hydra_links_round_trip "http://h/x" 2 20 3)
    as (v & v' & Hv & Hv' & Hn & Hp & _); [lia|lia|].
  exists v, v'. repeat split; assumption.
Defined.

Lemma list_response_has_a_view_witness :
  exists r,
    ApiMysql.get_entreprises_by_activite
      Samples.local_request "62.01Z" 7 20 Samples.some_db = Ok r /\
    1 <= ApiMysql.total_pages (ApiMysql.pagination r) /\
    is_Some (ApiMysql.view (ApiMysql.pagination r)).
Proof.
  eexists. split; [vm_compute; reflexivity|].
  match goal with |- context [ApiMysql.total_pages (ApiMysql.pagination ?r)] =>
    destruct (proj1 (list_response_has_a_view Samples.some_db
                       Samples.local_request "62.01Z" "abc" 7 20 r))
      as (Hpos & v & Hv & _)
  end.
  - vm_compute. reflexivity.
  - split; [exact Hpos|]. rewrite Hv. by eexists.
Defined.

(** ** One URL for each page request *)
Section PageUrls.

(** The decimal digits of a number have no ampersand. *)
Lemma pretty_N_go_no_ampersand (x : N) (s : string) :
  "&"%char ∉ String.list_ascii_of_string s ->
  "&"%char ∉ String.list_ascii_of_string (pretty_N_go x s).
Proof.
  revert s. induction (N.lt_wf_0 x) as [x _ IH]; intros s Hs.
  destruct (decide (x = 0%N)) as [->|Hx]; [by rewrite pretty_N_go_0|].
  rewrite pretty_N_go_step by lia. apply IH.
  - apply N.div_lt; lia.
  - simpl. apply not_elem_of_cons. split; [|done].
    unfold pretty_N_char. by repeat case_match.
Qed.

Lemma pretty_Z_no_ampersand (z : Z) :
  "&"%char ∉ String.list_ascii_of_string (pretty z).
Proof.
  assert (forall p : positive,
            "&"%char ∉ String.list_ascii_of_string (pretty (Npos p))) as Hpos.
  { intros p. unfold pretty, pretty_N. destruct (decide _); [done|].
    apply pretty_N_go_no_ampersand. apply not_elem_of_nil. }
  destruct z as [|p|p]; unfold pretty, pretty_Z.
  - simpl. apply not_elem_of_cons. split; [done|apply not_elem_of_nil].
  - apply Hpos.
  - simpl. apply not_elem_of_cons. split; [done|apply Hpos].
Qed.

(** Two texts without an ampersand, each followed by an ampersand and more:
    when the whole is the same, so are the parts. *)
Lemma app_ampersand_inj (s1 s2 t1 t2 : string) :
  "&"%char ∉ String.list_ascii_of_string s1 ->
  "&"%char ∉ String.list_ascii_of_string s2 ->
  s1 +:+ String "&" t1 = s2 +:+ String "&" t2 ->
  s1 = s2 /\ t1 = t2.
Proof.
  revert s2. induction s1 as [|c s1 IH]; intros [|c' s2] H1 H2 Heq;
    simpl in *.
  - by inversion Heq.
  - inversion Heq; subst. exfalso. apply H2. apply elem_of_cons. by left.
  - inversion Heq; subst. exfalso. apply H1. apply elem_of_cons. by left.
  - inversion Heq; subst.
    apply not_elem_of_cons in H1 as [_ H1].
    apply not_elem_of_cons in H2 as [_ H2].
    destruct (IH s2 H1 H2) as [-> ->]; done.
Qed.

(** The URL of a page request tells the page and the page size: under one
    base URL, two requests with the same URL are the same request.  So no
    two pages of a listing share their [@id], and a link never leads to
    another page than the one it was built for. *)
Theorem page_url_inj (base_url : string) (page limit page' limit' : Z) :
  (ApiMysql.page_url base_url page limit
   = ApiMysql.page_url base_url page' limit' ->
   page = page' /\ limit = limit') /\
  (ApiSpark.page_url base_url page limit
   = ApiSpark.page_url base_url page' limit' ->
   page = page' /\ limit = limit').
Proof.
  assert (forall p l p' l' : Z,
    base_url +:+ "?page=" +:+ pretty p +:+ "&limit=" +:+ pretty l
    = base_url +:+ "?page=" +:+ pretty p' +:+ "&limit=" +:+ pretty l' ->
    p = p' /\ l = l') as Hinj.
  { intros p l p' l' Heq.
    apply (inj (String.append base_url)) in Heq.
    apply (inj (String.append "?page=")) in Heq.
    change ("&limit=" +:+ pretty l) with (String "&" ("limit=" +:+ pretty l))
      in Heq.
    change ("&limit=" +:+ pretty l') with (String "&" ("limit=" +:+ pretty l'))
      in Heq.
    apply app_ampersand_inj in Heq as [Hp Hl];
      [|apply pretty_Z_no_ampersand..].
    apply (inj (String.append "limit=")) in Hl.
    split; by apply (inj pretty). }
  split; apply Hinj.
Qed.

End PageUrls.

Lemma page_url_inj_witness :
  ApiMysql.page_url "http://h/x" 12 3 <> ApiMysql.page_url "http://h/x" 1 23.
Proof.
  intros Heq.
  destruct (proj1 (page_url_inj "http://h/x" 12 3 1 23) Heq) as [Hp _].
  discriminate Hp.
Defined.

(** * Further properties of the statistics service *)
Section JsonLd.
Import ImportCsv SparkService.

Lemma dict_get_set {V} (d : pydict V) (k k' : string) (v : V) :
  dict_get (dict_set d k v) k'
  = if decide (k = k') then Some v else dict_get d k'.
Proof.
  induction d as [|[k0 v0] d IH]; simpl.
  - by destruct (decide (k = k')).
  - destruct (decide (k0 = k)) as [->|Hne]; simpl.
    + by destruct (decide (k = k')).
    + rewrite IH. destruct (decide (k0 = k')) as [->|]; [|done].
      by rewrite decide_False by done.
Qed.

Lemma dict_keys_set {V} (d : pydict V) (k : string) (v : V) :
  dict_keys (dict_set d k v)
  = if decide (k ∈ dict_keys d) then dict_keys d else dict_keys d ++ [k].
Proof.
  unfold dict_keys. induction d as [|[k0 v0] d IH].
  - rewrite decide_False; [done|apply not_elem_of_nil].
  - cbn [dict_set]. rewrite !fmap_cons. cbn [fst].
    destruct (decide (k0 = k)) as [->|Hne].
    + rewrite decide_True; [done|]. apply elem_of_cons. by left.
    + rewrite fmap_cons, IH. cbn [fst].
      destruct (decide (k ∈ d.*1)) as [Hin|Hout].
      * rewrite decide_True; [done|]. apply elem_of_cons. by right.
      * rewrite decide_False; [done|].
        intros Hin. apply elem_of_cons in Hin as [?|?]; [congruence|done].
Qed.

Lemma dict_get_absent {V} (d : pydict V) (k : string) :
  k ∉ dict_keys d -> dict_get d k = None.
Proof.
  unfold dict_keys. induction d as [|[k0 v0] d IH]; simpl; [done|].
  intros Hk. apply not_elem_of_cons in Hk as [Hne Hk].
  rewrite decide_False by congruence. by apply IH.
Qed.

(** [{**d, **data}]: a key of [data] has the value of [data], any other key
    keeps the value of [d]; the keys of [d] stay at the front, in their
    order. *)
Lemma dict_update_lookup {V} (data d : pydict V) (k : string) :
  NoDup (dict_keys data) ->
  dict_get (dict_update d data) k
  = match dict_get data k with
    | Some v => Some v
    | None => dict_get d k
    end.
Proof.
  unfold dict_update. revert d.
  induction data as [|[k0 v0] data IH]; intros d Hnd; simpl; [done|].
  unfold dict_keys in Hnd. simpl in Hnd. apply NoDup_cons in Hnd as [Hk0 Hnd].
  rewrite IH by done. rewrite dict_get_set.
  destruct (decide (k0 = k)) as [->|Hne]; [|done].
  by rewrite (dict_get_absent data k).
Qed.

Lemma dict_update_keys {V} (data d : pydict V) :
  dict_keys d `prefix_of` dict_keys (dict_update d data).
Proof.
  unfold dict_update. revert d.
  induction data as [|[k0 v0] data IH]; intros d; simpl; [done|].
  etrans; [|apply IH]. rewrite dict_keys_set.
  destruct (decide _); [done|]. by apply prefix_app_r.
Qed.

(** [to_jsonld] lets [data] win: a key of [data] keeps the value [data]
    gives it, also for ["@context"] and ["@type"]; only when [data] does
    not set them are they the Hydra context and [type_name].  Whatever
    [data] is, the answer starts with ["@context"] and ["@type"]. *)
Theorem to_jsonld_lookup (type_name : string) (data : pydict json)
    (k : string) :
  NoDup (dict_keys data) ->
  dict_get (to_jsonld type_name data) k
  = match dict_get data k with
    | Some v => Some v
    | None =>
        if decide (k = "@context") then Some JSONLD_CONTEXT
        else if decide (k = "@type") then Some (JStr type_name)
        else None
    end /\
  take 2 (dict_keys (to_jsonld type_name data)) = ["@context"; "@type"].
Proof.
  intros Hnd. unfold to_jsonld. split.
  - rewrite dict_update_lookup by done.
    destruct (dict_get data k); [done|].
    destruct (decide (k = "@context")) as [->|Hc]; [done|].
    destruct (decide (k = "@type")) as [->|Ht]; [done|].
    simpl. rewrite !decide_False; [done|..]; intros E; by subst.
  - destruct (dict_update_keys data
                [("@context", JSONLD_CONTEXT); ("@type", JStr type_name)])
      as [rest ->].
    reflexivity.
Qed.

End JsonLd.

Lemma to_jsonld_lookup_witness :
  ImportCsv.dict_get
    (SparkService.to_jsonld "ItemList"
       [("totalItems", SparkService.JInt 3);
        ("@type", SparkService.JStr "Thing")]) "@type"
  = Some (SparkService.JStr "Thing").
Proof.
  refine (eq_trans
    (proj1 (to_jsonld_lookup "ItemList"
              [("totalItems", SparkService.JInt 3);
               ("@type", SparkService.JStr "Thing")] "@type" _)) _).
  - apply (bool_decide_unpack _). vm_compute. reflexivity.
  - reflexivity.
Defined.

Section CountByActivity.
Import ImportCsv SparkService.
Variable str_exn : exn -> string.

Lemma create_pagination_defined (page limit total : Z) (base_url : string) :
  1 <= limit -> total < 2 ^ 1023 ->
  exists p, ApiSpark.create_pagination page limit total base_url = Ok p.
Proof.
  intros Hl Ht. unfold ApiSpark.create_pagination.
  destruct (Z.ltb_spec 0 total).
  - destruct (truediv_defined total limit) as [x ->]; [lia..|].
    rewrite !bind_Ok. eauto.
  - rewrite bind_Ok. eauto.
Qed.

(** [df.limit(limit).offset(offset)] keeps the first [limit] rows and then
    drops [offset] of them: with [offset = (page - 1) * limit] that is the
    first page on page 1 and nothing on any later page. *)
Lemma limit_then_offset (df : list activity_row) (page limit : Z) :
  1 <= page -> 1 <= limit ->
  df_offset ((page - 1) * limit) (df_limit limit df)
  = if page =? 1 then take (Z.to_nat limit) df else [].
Proof.
  intros Hp Hl. unfold df_offset, df_limit.
  destruct (Z.eqb_spec page 1) as [->|Hne]; [done|].
  apply drop_ge. rewrite length_take.
  assert (2 <= page) as Hp2 by lia.
  assert (limit <= (page - 1) * limit) as Hle by nia.
  lia.
Qed.

(** The paginated statistics endpoint only ever shows the first page: a
    valid request gets the first [limit] rows on page 1 and an empty list on
    every later page, while [totalItems] is the full count (so the
    pagination still announces the other pages). *)
Theorem count_by_activity_later_pages_are_empty (df : list activity_row)
    (request : Request) (page limit : Z) :
  1 <= page -> 1 <= limit <= 100 -> Z.of_nat (length df) < 2 ^ 63 ->
  exists body,
    count_by_activity str_exn (Ok df) request page limit = inr body /\
    dict_get body "itemListElement"
    = Some (JList (activity_item <$>
                     (if page =? 1 then take (Z.to_nat limit) df else []))) /\
    dict_get body "numberOfItems"
    = Some (JInt (if page =? 1 then Z.min limit (Z.of_nat (length df)) else 0)) /\
    dict_get body "totalItems" = Some (JInt (Z.of_nat (length df))).
Proof.
  intros Hp Hl Hcount. unfold count_by_activity.
  destruct (Z.leb_spec 1 page); [|lia].
  destruct (Z.leb_spec 1 limit); [|lia].
  destruct (Z.leb_spec limit 100); [|lia]. simpl negb. cbv iota.
  assert (2 ^ 63 < 2 ^ 1023) as Hpow by (apply Z.pow_lt_mono_r; lia).
  destruct (create_pagination_defined page limit (Z.of_nat (length df))
              (scheme request +:+ "://" +:+ netloc request
                 +:+ "/stats/activites/count")) as [p ->]; [lia..|].
  rewrite limit_then_offset, length_fmap by lia.
  assert (Z.of_nat (length (if page =? 1 then take (Z.to_nat limit) df else []))
          = (if page =? 1 then Z.min limit (Z.of_nat (length df)) else 0))
    as ->.
  { destruct (page =? 1); [|done]. rewrite length_take. lia. }
  eexists. split; [reflexivity|]. repeat split; reflexivity.
Qed.

(** The endpoint answers nothing but its result, a 422 for a request out
    of bounds, or a 500: every exception of Spark or of the computation of
    the pages is turned into a 500. *)
Theorem count_by_activity_errors (activity : result (list activity_row))
    (request : Request) (page limit : Z) (err : http_error) :
  count_by_activity str_exn activity request page limit = inl err ->
  (err = ValidationError422 /\ ~ (1 <= page /\ 1 <= limit <= 100)) \/
  (exists e, err = HTTPException 500 ("Spark query failed: " +:+ str_exn e)).
Proof.
  unfold count_by_activity.
  destruct (Z.leb_spec 1 page); simpl.
  2:{ intros Heq. inversion Heq. left. split; [done|lia]. }
  destruct (Z.leb_spec 1 limit); simpl.
  2:{ intros Heq. inversion Heq. left. split; [done|lia]. }
  destruct (Z.leb_spec limit 100); simpl.
  2:{ intros Heq. inversion Heq. left. split; [done|lia]. }
  destruct activity as [df|e].
  - destruct (ApiSpark.create_pagination _ _ _ _) as [p|e]; [done|].
    intros Heq. inversion Heq. right. by exists e.
  - intros Heq. inversion Heq. right. by exists e.
Qed.

End CountByActivity.

Lemma count_by_activity_later_pages_are_empty_witness :
  exists body,
    SparkService.count_by_activity (fun _ => "") (Ok MoreSamples.activities)
      MoreSamples.spark_request 2 20 = inr body /\
    ImportCsv.dict_get body "itemListElement" = Some (SparkService.JList []) /\
    ImportCsv.dict_get body "totalItems" = Some (SparkService.JInt 45).
Proof.
  destruct (count_by_activity_later_pages_are_empty (fun _ => "")
              MoreSamples.activities MoreSamples.spark_request 2 20)
    as (body & Hbody & Hitems & _ & Htotal).
  - lia.
  - lia.
  - reflexivity.
  - exists body. split; [exact Hbody|]. split; [exact Hitems|exact Htotal].
Defined.

Lemma count_by_activity_errors_witness :
  SparkService.count_by_activity (fun _ => "timeout") (Raise DatabaseError)
    MoreSamples.spark_request 1 20
  = inl (SparkService.HTTPException 500 "Spark query failed: timeout").
Proof.
  destruct (count_by_activity_errors (fun _ => "timeout") (Raise DatabaseError)
              MoreSamples.spark_request 1 20
              (SparkService.HTTPException 500 "Spark query failed: timeout"))
    as [[Hbad _]|[e He]].
  - reflexivity.
  - discriminate Hbad.
  - reflexivity.
Defined.

(** ** The token check of the statistics service *)
Section VerifyToken.
Import SparkService.
Variable str_exn : exn -> string.
Variable str_http_exception : Z -> string -> string.
Variable OAUTH2_URL : string.
Variable http_get : string -> result (Z * result json).

Lemma split_space_cons (s : string) :
  exists part parts, split_space s = part :: parts.
Proof.
  induction s as [|c s (part & parts & IH)]; simpl; [by eexists _, _|].
  destruct (decide (c = " "%char)); [by eexists _, _|].
  rewrite IH. by eexists _, _.
Qed.

Lemma split_space_no_space (t : string) :
  " "%char ∉ String.list_ascii_of_string t -> split_space t = [t].
Proof.
  induction t as [|c t IH]; simpl; [done|]. intros Hc.
  apply not_elem_of_cons in Hc as [Hne Hc].
  rewrite decide_False by congruence. by rewrite IH.
Qed.

Lemma split_space_app (t u : string) :
  " "%char ∉ String.list_ascii_of_string t ->
  split_space (t +:+ String " " u) = t :: split_space u.
Proof.
  induction t as [|c t IH]; simpl; [done|]. intros Hc.
  apply not_elem_of_cons in Hc as [Hne Hc].
  rewrite decide_False by congruence. by rewrite IH.
Qed.

Lemma prefix_app (s1 s2 : string) :
  String.prefix s1 s2 = true -> exists rest, s2 = s1 +:+ rest.
Proof.
  revert s2. induction s1 as [|a s1 IH]; intros s2; [by exists s2|].
  destruct s2 as [|b s2]; simpl; [done|].
  destruct (ascii_dec a b) as [->|]; [|done].
  intros Hp. destruct (IH s2 Hp) as [rest ->]. by exists rest.
Qed.

Lemma bearer_no_space : " "%char ∉ String.list_ascii_of_string "Bearer".
Proof. apply (bool_decide_unpack _). vm_compute. exact I. Qed.

(** The token is what stands between ["Bearer "] and the next space (or the
    end) of the header. *)
Lemma bearer_token (t : string) :
  " "%char ∉ String.list_ascii_of_string t ->
  split_space ("Bearer " +:+ t) !! 1%nat = Some t /\
  forall u, split_space ("Bearer " +:+ t +:+ String " " u) !! 1%nat = Some t.
Proof.
  intros Ht. split.
  - change ("Bearer " +:+ t) with ("Bearer" +:+ String " " t).
    rewrite split_space_app; [|exact bearer_no_space].
    by rewrite split_space_no_space.
  - intros u.
    change ("Bearer " +:+ t +:+ String " " u)
      with ("Bearer" +:+ String " " (t +:+ String " " u)).
    rewrite split_space_app; [|exact bearer_no_space].
    by rewrite split_space_app.
Qed.

(** The token check of the statistics service knows one failure only: every
    refusal is a 401, also when the OAuth server cannot be reached or
    answers something unreadable; and a token is accepted only after the
    OAuth server has answered 200 to a request for it. *)
Theorem verify_token_outcomes (auth_header : option string) :
  match verify_token str_exn str_http_exception OAUTH2_URL http_get
          auth_header with
  | inl err => exists detail, err = HTTPException 401 detail
  | inr data =>
      exists header token,
        auth_header = Some header /\
        split_space header !! 1%nat = Some token /\
        http_get (OAUTH2_URL +:+ "/v1/secure?access_token=" +:+ token)
        = Ok (200, Ok data)
  end.
Proof.
  unfold verify_token. destruct auth_header as [header|]; [|by eexists].
  destruct (bool_decide (header = "")); simpl; [by eexists|].
  destruct (String.prefix "Bearer " header) eqn:Hprefix; simpl;
    [|by eexists].
  apply prefix_app in Hprefix as [rest ->].
  change ("Bearer " +:+ rest) with ("Bearer" +:+ String " " rest).
  rewrite split_space_app; [|exact bearer_no_space].
  destruct (split_space_cons rest) as (token & parts & Hsplit).
  rewrite Hsplit. simpl.
  destruct (http_get _) as [[status_code body]|e] eqn:Hget; [|by eexists].
  destruct (Z.eqb_spec status_code 200) as [->|]; simpl; [|by eexists].
  destruct body as [data|e]; [|by eexists].
  exists ("Bearer" +:+ String " " rest), token. split; [done|].
  split; [|done].
  rewrite split_space_app; [|exact bearer_no_space].
  by rewrite Hsplit.
Qed.

(** A header made of ["Bearer "] and a token without a space yields [data]
    exactly when the OAuth server answers the request for that token with
    status 200 and a body that is read as [data]; a 200 whose body cannot be
    read is refused; and what follows a further space in the header is not
    looked at. *)
Theorem verify_token_reads_the_token (t : string) :
  " "%char ∉ String.list_ascii_of_string t ->
  (forall data,
     verify_token str_exn str_http_exception OAUTH2_URL http_get
       (Some ("Bearer " +:+ t)) = inr data
     <-> http_get (OAUTH2_URL +:+ "/v1/secure?access_token=" +:+ t)
         = Ok (200, Ok data)) /\
  (forall e,
     http_get (OAUTH2_URL +:+ "/v1/secure?access_token=" +:+ t)
     = Ok (200, Raise e) ->
     verify_token str_exn str_http_exception OAUTH2_URL http_get
       (Some ("Bearer " +:+ t))
     = inl (HTTPException 401
              ("Token verification failed: " +:+ str_exn e))) /\
  (forall u,
     verify_token str_exn str_http_exception OAUTH2_URL http_get
       (Some ("Bearer " +:+ t +:+ String " " u))
     = verify_token str_exn str_http_exception OAUTH2_URL http_get
         (Some ("Bearer " +:+ t))).
Proof.
  intros Ht. destruct (bearer_token t Ht) as [Hone Hmore].
  assert (forall rest,
    verify_token str_exn str_http_exception OAUTH2_URL http_get
      (Some ("Bearer " +:+ rest))
    = match split_space ("Bearer " +:+ rest) !! 1%nat with
      | None => inl (HTTPException 500 "Internal Server Error")
      | Some token =>
          match http_get (OAUTH2_URL +:+ "/v1/secure?access_token=" +:+ token) with
          | Raise e =>
              inl (HTTPException 401
                     ("Token verification failed: " +:+ str_exn e))
          | Ok (status_code, body) =>
              if negb (status_code =? 200)
              then inl (HTTPException 401
                          ("Token verification failed: "
                             +:+ str_http_exception 401 "Invalid token"))
              else match body with
                   | Ok data => inr data
                   | Raise e =>
                       inl (HTTPException 401
                              ("Token verification failed: " +:+ str_exn e))
                   end
          end
      end) as Hbody.
  { intros rest. unfold verify_token.
    rewrite bool_decide_eq_false_2 by done.
    assert (String.prefix "Bearer " ("Bearer " +:+ rest) = true) as ->
      by (simpl; by destruct rest).
    reflexivity. }
  split; [|split].
  - intros data. rewrite Hbody, Hone. split.
    + destruct (http_get _) as [[status_code body]|e]; [|done].
      destruct (Z.eqb_spec status_code 200) as [->|]; simpl; [|done].
      destruct body as [data'|e]; [|done]. intros Heq. by inversion Heq.
    + by intros ->.
  - intros e Hget. by rewrite Hbody, Hone, Hget.
  - intros u. by rewrite (Hbody (t +:+ String " " u)), Hbody, Hmore, Hone.
Qed.

End VerifyToken.

Lemma verify_token_reads_the_token_witness :
  SparkService.verify_token (fun _ => "") (fun _ _ => "")
    "http://oauth2:3000" MoreSamples.oauth_server
    (Some "Bearer s3cr3t and more")
  = inr (SparkService.JDict [("user", SparkService.JStr "alice")]).
Proof.
  destruct (verify_token_reads_the_token (fun _ => "") (fun _ _ => "")
              "http://oauth2:3000" MoreSamples.oauth_server "s3cr3t")
    as (Hok & _ & Hrest).
  - apply (bool_decide_unpack _). vm_compute. exact I.
  - exact (eq_trans (Hrest "and more") (proj2 (Hok _) eq_refl)).
Defined.

(** ** More runs on sample data *)


Lemma batch_size_does_not_change_the_result_witness :
  let run batch_size :=
    ImportCsv.final
      (ImportCsv.import_csv (H := ImportCsv.mysql_connection Samples.accept_all)
         MoreSamples.two_rows (Ok <$> MoreSamples.lines_with_duplicate)
         batch_size false) in
  ImportCsv.skipped_rows (run 2) = ImportCsv.skipped_rows (run 1000) /\
  ImportCsv.connection (run 2) = ImportCsv.connection (run 1000).
Proof.
  destruct (batch_size_does_not_change_the_result Samples.accept_all
              (fun _ _ => eq_refl) MoreSamples.two_rows
              MoreSamples.lines_with_duplicate 2 1000 false)
    as (_ & Hc & _ & _ & Hs).
  split; [exact Hs|exact Hc].
Defined.

Lemma second_run_is_idempotent_witness :
  let first :=
    ImportCsv.import_csv (H := ImportCsv.mysql_connection Samples.accept_all)
      Samples.empty_table (Ok <$> MoreSamples.lines_with_duplicate) 2 false in
  let second :=
    ImportCsv.import_csv (H := ImportCsv.mysql_connection Samples.accept_all)
      (ImportCsv.connection (ImportCsv.final first))
      (Ok <$> MoreSamples.lines_with_duplicate) 3 false in
  ImportCsv.inserted_rows (ImportCsv.final first) = 4 /\
  ImportCsv.inserted_rows (ImportCsv.final second) = 0 /\
  ImportCsv.skipped_rows (ImportCsv.final second) = 5.
Proof.
  split; [vm_compute; reflexivity|].
  destruct (second_run_is_idempotent Samples.accept_all
              (fun _ _ => eq_refl) Samples.empty_table
              MoreSamples.lines_with_duplicate 2 3 false)
    as (_ & Hi & Hs & _).
  split; [exact Hi|exact Hs].
Defined.

Lemma pagination_rule_below_2_53_witness :
  exists p,
    ApiSpark.create_pagination 3 20 45 "http://h/x" = Ok p /\
    ApiSpark.total_pages p = 3 /\
    ApiSpark.has_next p = false.
Proof.
  destruct (pagination_rule_below_2_53 3 20 45 "http://h/x")
    as (p & Hp & Htp & Hnext & _).
  - split; [lia|reflexivity].
  - split; [lia|reflexivity].
  - exists p. split; [exact Hp|]. split; [exact Htp|].
    rewrite Hnext, Htp. reflexivity.
Defined.
